(** * FHMQV key agreement (fhmqv.h): a shallow embedding and its properties

    The class template [FHMQV_Domain<GROUP_PARAMETERS, COFACTOR_OPTION, HASH>]
    is embedded as functions over a record of group parameters and a record
    for the hash.  The group, the big integers, the hash and the random
    number generator belong to the Crypto++ library and are consumed through
    their interfaces; everything fhmqv.h itself does (key layouts, lengths,
    operand labelling, validation levels, challenges, combined exponents,
    the final digest, the try/catch) is written out below. *)

From Stdlib Require Import ZArith NArith List Bool Lia.
From Stdlib Require Import Strings.Byte.
Import ListNotations.

Local Open Scope Z_scope.

(** ** Bytes, buffers and unsigned ints *)

Definition byte := Byte.byte.
Definition bytes := list byte.

(** [unsigned int] arithmetic wraps modulo 2^32. *)
Definition u32 (n : N) : N := (n mod 2 ^ 32)%N.

(** The first [n] bytes at a pointer, and the pointer advanced by [n]. *)
Definition take (n : N) (p : bytes) : bytes := firstn (N.to_nat n) p.
Definition drop (n : N) (p : bytes) : bytes := skipn (N.to_nat n) p.

(** Storing [data] at offset [off] of a buffer. *)
Definition mem_write (buf : bytes) (off : N) (data : bytes) : bytes :=
  take off buf ++ data ++ skipn (N.to_nat off + length data) buf.

(** [memcpy(dst, src, n)]. *)
Definition memcpy (dst src : bytes) (n : N) : bytes :=
  mem_write dst 0 (take n src).

(** A [SecByteBlock b(n)] is [n] bytes of storage whose elements the
    constructor does not initialise: the block starts with whatever the
    allocator hands out, given here by [uninit] (zero-extended where it is
    shorter than the block). *)
Definition SecByteBlock (uninit : bytes) (n : N) : bytes :=
  take n (uninit ++ repeat x00 (N.to_nat n)).

(** The blocks [Agree] and [Hash] allocate. *)
Inductive alloc_site := site_tt | site_dd | site_ee | site_sbb.
Definition allocator := alloc_site -> bytes.

(** ** Crypto++ [Integer]: the operations fhmqv.h uses *)

Definition byte_of_Z (z : Z) : byte :=
  match Byte.of_N (Z.to_N (z mod 256)) with
  | Some b => b
  | None => x00
  end.

Definition Z_of_byte (b : byte) : Z := Z.of_N (Byte.to_N b).

(** [Integer(encoded, byteCount)]: big-endian, unsigned. *)
Definition Integer_Decode (encoded : bytes) (byteCount : N) : Z :=
  fold_left (fun acc b => acc * 256 + Z_of_byte b) (take byteCount encoded) 0.

(** [Integer::Encode(output, outputLen)]: big-endian, unsigned, exactly
    [outputLen] bytes (high bytes that do not fit are dropped). *)
Fixpoint Integer_Encode_nat (x : Z) (outputLen : nat) : bytes :=
  match outputLen with
  | O => []
  | S n => byte_of_Z (Z.shiftr x (8 * Z.of_nat n)) :: Integer_Encode_nat x n
  end.

Definition Integer_Encode (x : Z) (outputLen : N) : bytes :=
  Integer_Encode_nat x (N.to_nat outputLen).

(** [Integer::BitCount] and [Integer::ByteCount]: significant bits / bytes. *)
Definition BitCount (x : Z) : N := N.size (Z.abs_N x).
Definition ByteCount (x : Z) : N := ((BitCount x + 7) / 8)%N.

(** ** Exceptions and control flow of a function body *)

Inductive exn := DL_BadElement | Integer_DivideByZero.

(** A statement sequence falls through with a value, executes
    [return b], or throws. *)
Inductive flow (A : Type) :=
| Next (a : A)
| Return (b : bool)
| Throw (e : exn).
Arguments Next {A} a.
Arguments Return {A} b.
Arguments Throw {A} e.

Definition bind {A B} (c : flow A) (k : A -> flow B) : flow B :=
  match c with
  | Next a => k a
  | Return b => Return b
  | Throw e => Throw e
  end.

Notation "x <- c ;; k" := (bind c (fun x => k))
  (at level 61, c at next level, right associativity).

(** What the caller of a [bool] function sees: the value returned together
    with the output buffer, or an exception that escaped. *)
Inductive outcome :=
| Returned (ok : bool) (agreedValue : bytes)
| Raised (e : exn).

(** In a build with assertions a statement sequence can also stop the
    process at a failed [assert]. *)
Inductive aflow (A : Type) :=
| ANext (a : A)
| AReturn (b : bool)
| AThrow (e : exn)
| AAbort.
Arguments ANext {A} a.
Arguments AReturn {A} b.
Arguments AThrow {A} e.
Arguments AAbort {A}.

Definition abind {A B} (c : aflow A) (k : A -> aflow B) : aflow B :=
  match c with
  | ANext a => k a
  | AReturn b => AReturn b
  | AThrow e => AThrow e
  | AAbort => AAbort
  end.

Notation "x <-! c ;; k" := (abind c (fun x => k))
  (at level 61, c at next level, right associativity).

(** Statements without assertions run the same in both builds. *)
Definition unasserted {A} (c : flow A) : aflow A :=
  match c with
  | Next a => ANext a
  | Return b => AReturn b
  | Throw e => AThrow e
  end.

(** What becomes of a call in a build with assertions: it comes back to
    the caller, or the process is aborted. *)
Inductive process :=
| Completed (r : outcome)
| Aborted.

(** [a % q] on non-negative [a]; a zero modulus throws. *)
Definition Integer_mod (a q : Z) : flow Z :=
  if q =? 0 then Throw Integer_DivideByZero else Next (a mod q).

(** ** The interfaces consumed *)

(** [DL_GroupParameters<Element>]. [DecodeElement] yields [None] where the
    library throws [DL_BadElement]. [EncodeElement] yields the bytes it
    stores at its destination. *)
Record DL_GroupParameters (Element : Type) := {
  GetGroupOrder : Z;
  GetSubgroupOrder : Z;
  GetMaxExponent : Z;
  GetEncodedElementSize : bool -> N;
  ExponentiateBase : Z -> Element;
  ExponentiateElement : Element -> Z -> Element;
  MultiplyElements : Element -> Element -> Element;
  EncodeElement : bool -> Element -> bytes;
  DecodeElement : bytes -> bool -> option Element;
  ValidateElement : N -> Element -> bool
}.
Arguments GetGroupOrder {Element}.
Arguments GetSubgroupOrder {Element}.
Arguments GetMaxExponent {Element}.
Arguments GetEncodedElementSize {Element}.
Arguments ExponentiateBase {Element}.
Arguments ExponentiateElement {Element}.
Arguments MultiplyElements {Element}.
Arguments EncodeElement {Element}.
Arguments DecodeElement {Element}.
Arguments ValidateElement {Element}.

(** The [HASH] template argument: [Update] calls feed the concatenation
    of their arguments, [Final] is the native digest of what was fed and
    [TruncatedFinal(digest, n)] stores its first [n] bytes. *)
Record HashTransformation := {
  DIGESTSIZE : N;
  Final : bytes -> bytes
}.

(** [Integer x(rng, min, max)]: a draw and the generator's next state. *)
Record RandomNumberGenerator := {
  rng_state : Type;
  GenerateInteger : rng_state -> Z -> Z -> Z * rng_state
}.

(** ** FHMQV_Domain *)

Inductive KeyAgreementRole := RoleServer | RoleClient.

Record FHMQV_Domain (Element : Type) := {
  HASH : HashTransformation;
  m_role : KeyAgreementRole;
  m_groupParameters : DL_GroupParameters Element
}.
Arguments HASH {Element}.
Arguments m_role {Element}.
Arguments m_groupParameters {Element}.

(** [FHMQV_Domain(params, clientRole = true)]. *)
Definition mk_FHMQV_Domain {Element} (H : HashTransformation)
    (params : DL_GroupParameters Element) (clientRole : bool) :=
  {| HASH := H;
     m_role := if clientRole then RoleClient else RoleServer;
     m_groupParameters := params |}.

Section Domain.

Context {Element : Type}.
Variable D : FHMQV_Domain Element.

Definition GetAbstractGroupParameters := m_groupParameters D.

Definition AgreedValueLength : N := DIGESTSIZE (HASH D).

Definition StaticPrivateKeyLength : N :=
  ByteCount (GetSubgroupOrder GetAbstractGroupParameters).

Definition StaticPublicKeyLength : N :=
  GetEncodedElementSize GetAbstractGroupParameters true.

Definition EphemeralPrivateKeyLength : N :=
  u32 (StaticPrivateKeyLength + StaticPublicKeyLength).

Definition EphemeralPublicKeyLength : N := StaticPublicKeyLength.

(** The condition [Hash] asserts on entry,
    [assert(dlen <= (size_t)HASH::DIGESTSIZE)]. *)
Definition Hash_assert (dlen : N) : bool := (dlen <=? DIGESTSIZE (HASH D))%N.

(** [Hash(sigma, e1, e1len, e2, e2len, s1, s1len, s2, s2len, digest, dlen)]:
    the contents of [digest] afterwards.  The body is the one a build
    with [NDEBUG] runs: the assertion is gone and [std::min] bounds what is
    stored, so the bytes of [digest] from [DIGESTSIZE] on keep what they
    held.  [Hash_asserting] below is the function with its assertion. *)
Definition Hash (U : allocator) (sigma : option Element)
    (e1 : bytes) (e1len : N) (e2 : bytes) (e2len : N)
    (s1 : bytes) (s1len : N) (s2 : bytes) (s2len : N)
    (digest : bytes) (dlen : N) : bytes :=
  let fed0 :=
    match sigma with
    | Some sg =>
        let params := GetAbstractGroupParameters in
        let sbb := SecByteBlock (U site_sbb) (GetEncodedElementSize params true) in
        let sbb := mem_write sbb 0 (EncodeElement params true sg) in
        take (GetEncodedElementSize params true) sbb
    | None => []
    end in
  let fed := fed0 ++ take e1len e1 ++ take e2len e2
                  ++ take s1len s1 ++ take s2len s2 in
  let sz := N.min dlen (DIGESTSIZE (HASH D)) in
  mem_write digest 0 (take sz (Final (HASH D) fed)).

Section KeyGeneration.

Variable R : RandomNumberGenerator.

Definition GenerateStaticPrivateKey (rng : rng_state R) (privateKey : bytes)
  : rng_state R * bytes :=
  let (x, rng) :=
    GenerateInteger R rng 1 (GetMaxExponent GetAbstractGroupParameters) in
  (rng, mem_write privateKey 0 (Integer_Encode x StaticPrivateKeyLength)).

Definition GenerateStaticPublicKey (rng : rng_state R)
    (privateKey publicKey : bytes) : rng_state R * bytes :=
  let params := GetAbstractGroupParameters in
  let x := Integer_Decode privateKey StaticPrivateKeyLength in
  let y := ExponentiateBase params x in
  (rng, mem_write publicKey 0 (EncodeElement params true y)).

Definition GenerateEphemeralPrivateKey (rng : rng_state R) (privateKey : bytes)
  : rng_state R * bytes :=
  let params := GetAbstractGroupParameters in
  let (x, rng) := GenerateInteger R rng 1 (GetMaxExponent params) in
  let privateKey := mem_write privateKey 0 (Integer_Encode x StaticPrivateKeyLength) in
  let y := ExponentiateBase params x in
  (rng, mem_write privateKey StaticPrivateKeyLength (EncodeElement params true y)).

Definition GenerateEphemeralPublicKey (rng : rng_state R)
    (privateKey publicKey : bytes) : rng_state R * bytes :=
  (rng, memcpy publicKey (drop StaticPrivateKeyLength privateKey)
               EphemeralPublicKeyLength).

End KeyGeneration.

(** The challenge length computed in [Agree], in [unsigned int]. *)
Definition challenge_len (q : Z) : N :=
  ((u32 (BitCount q + 1) / 2 + 7) / 8)%N.

(** The pointers and sizes set up by the first role branch of [Agree]. *)
Record operands := {
  XX : bytes; xxs : N;
  YY : bytes; yys : N;
  AA : bytes; aas : N;
  BB : bytes; bbs : N
}.

(** [m_role] is one of the two enumerators, set by the constructors; the
    final [else { assert(0); return false; }] has no role left to run for. *)
Definition label_operands (U : allocator)
    (staticPrivateKey ephemeralPrivateKey
     staticOtherPublicKey ephemeralOtherPublicKey : bytes) : operands :=
  let params := GetAbstractGroupParameters in
  let tt := SecByteBlock (U site_tt) StaticPublicKeyLength in
  match m_role D with
  | RoleServer =>
      let b := Integer_Decode staticPrivateKey StaticPrivateKeyLength in
      let B := ExponentiateBase params b in
      let tt := mem_write tt 0 (EncodeElement params true B) in
      {| XX := ephemeralOtherPublicKey; xxs := EphemeralPublicKeyLength;
         YY := drop StaticPrivateKeyLength ephemeralPrivateKey;
         yys := EphemeralPublicKeyLength;
         AA := staticOtherPublicKey; aas := StaticPublicKeyLength;
         BB := tt; bbs := StaticPublicKeyLength |}
  | RoleClient =>
      let a := Integer_Decode staticPrivateKey StaticPrivateKeyLength in
      let A := ExponentiateBase params a in
      let tt := mem_write tt 0 (EncodeElement params true A) in
      {| XX := drop StaticPrivateKeyLength ephemeralPrivateKey;
         xxs := EphemeralPublicKeyLength;
         YY := ephemeralOtherPublicKey; yys := EphemeralPublicKeyLength;
         AA := tt; aas := StaticPublicKeyLength;
         BB := staticOtherPublicKey; bbs := StaticPublicKeyLength |}
  end.

(** [d] and [e] as [Agree] derives them from the labelled operands. *)
Definition challenge_d (U : allocator) (o : operands) : Z :=
  let len := challenge_len (GetSubgroupOrder GetAbstractGroupParameters) in
  let dd := SecByteBlock (U site_dd) len in
  let dd := Hash U None (XX o) (xxs o) (YY o) (yys o)
                 (AA o) (aas o) (BB o) (bbs o) dd len in
  Integer_Decode dd len.

Definition challenge_e (U : allocator) (o : operands) : Z :=
  let len := challenge_len (GetSubgroupOrder GetAbstractGroupParameters) in
  let ee := SecByteBlock (U site_ee) len in
  let ee := Hash U None (YY o) (yys o) (XX o) (xxs o)
                 (AA o) (aas o) (BB o) (bbs o) ee len in
  Integer_Decode ee len.

Definition decode_or_throw (encoded : bytes) (check : bool) : flow Element :=
  match DecodeElement GetAbstractGroupParameters encoded check with
  | Some E => Next E
  | None => Throw DL_BadElement
  end.

(** The body of the [try] block of [Agree]; on falling through it has
    stored the digest in [agreedValue]. *)
Definition Agree_try (U : allocator) (agreedValue : bytes)
    (staticPrivateKey ephemeralPrivateKey
     staticOtherPublicKey ephemeralOtherPublicKey : bytes)
    (validateStaticOtherPublicKey : bool) : flow bytes :=
  let params := GetAbstractGroupParameters in
  let o := label_operands U staticPrivateKey ephemeralPrivateKey
             staticOtherPublicKey ephemeralOtherPublicKey in
  VV1 <- decode_or_throw staticOtherPublicKey false ;;
  if negb (ValidateElement params
             (if validateStaticOtherPublicKey then 3%N else 1%N) VV1)
  then Return false else
  VV2 <- decode_or_throw ephemeralOtherPublicKey false ;;
  if negb (ValidateElement params 3%N VV2) then Return false else
  let q := GetSubgroupOrder params in
  let d := challenge_d U o in
  let e := challenge_e U o in
  sigma <-
    match m_role D with
    | RoleServer =>
        let y := Integer_Decode ephemeralPrivateKey StaticPrivateKeyLength in
        let b := Integer_Decode staticPrivateKey StaticPrivateKeyLength in
        s_B <- Integer_mod (y + e * b) q ;;
        A <- decode_or_throw (AA o) false ;;
        X <- decode_or_throw (XX o) false ;;
        let t1 := ExponentiateElement params A d in
        let t2 := MultiplyElements params X t1 in
        Next (ExponentiateElement params t2 s_B)
    | RoleClient =>
        let x := Integer_Decode ephemeralPrivateKey StaticPrivateKeyLength in
        let a := Integer_Decode staticPrivateKey StaticPrivateKeyLength in
        s_A <- Integer_mod (x + d * a) q ;;
        B <- decode_or_throw (BB o) false ;;
        Y <- decode_or_throw (YY o) false ;;
        let t1 := ExponentiateElement params B e in
        let t2 := MultiplyElements params Y t1 in
        Next (ExponentiateElement params t2 s_A)
    end ;;
  Next (Hash U (Some sigma) (XX o) (xxs o) (YY o) (yys o)
             (AA o) (aas o) (BB o) (bbs o) agreedValue AgreedValueLength).

(** [Agree]: the [try] block, [catch (DL_BadElement &) { return false; }],
    and [return true] after it, as a build with [NDEBUG] runs them;
    [Agree_asserting] below is the build with assertions, where a failed
    [assert] in [Hash] aborts the process. *)
Definition Agree (U : allocator) (agreedValue : bytes)
    (staticPrivateKey ephemeralPrivateKey
     staticOtherPublicKey ephemeralOtherPublicKey : bytes)
    (validateStaticOtherPublicKey : bool) : outcome :=
  match Agree_try U agreedValue staticPrivateKey ephemeralPrivateKey
          staticOtherPublicKey ephemeralOtherPublicKey
          validateStaticOtherPublicKey with
  | Next written => Returned true written
  | Return b => Returned b agreedValue
  | Throw DL_BadElement => Returned false agreedValue
  | Throw e => Raised e
  end.

(** *** The build with assertions

    [Hash] with its [assert(dlen <= (size_t)HASH::DIGESTSIZE)] in force:
    the assertion is checked on entry, then the body runs. *)
Definition Hash_asserting (U : allocator) (sigma : option Element)
    (e1 : bytes) (e1len : N) (e2 : bytes) (e2len : N)
    (s1 : bytes) (s1len : N) (s2 : bytes) (s2len : N)
    (digest : bytes) (dlen : N) : aflow bytes :=
  if Hash_assert dlen
  then ANext (Hash U sigma e1 e1len e2 e2len s1 s1len s2 s2len digest dlen)
  else AAbort.

(** The [try] block of [Agree] with the three calls of [Hash] asserting. *)
Definition Agree_asserting_try (U : allocator) (agreedValue : bytes)
    (staticPrivateKey ephemeralPrivateKey
     staticOtherPublicKey ephemeralOtherPublicKey : bytes)
    (validateStaticOtherPublicKey : bool) : aflow bytes :=
  let params := GetAbstractGroupParameters in
  let o := label_operands U staticPrivateKey ephemeralPrivateKey
             staticOtherPublicKey ephemeralOtherPublicKey in
  VV1 <-! unasserted (decode_or_throw staticOtherPublicKey false) ;;
  if negb (ValidateElement params
             (if validateStaticOtherPublicKey then 3%N else 1%N) VV1)
  then AReturn false else
  VV2 <-! unasserted (decode_or_throw ephemeralOtherPublicKey false) ;;
  if negb (ValidateElement params 3%N VV2) then AReturn false else
  let q := GetSubgroupOrder params in
  let len := challenge_len q in
  dd <-! Hash_asserting U None (XX o) (xxs o) (YY o) (yys o)
           (AA o) (aas o) (BB o) (bbs o) (SecByteBlock (U site_dd) len) len ;;
  let d := Integer_Decode dd len in
  ee <-! Hash_asserting U None (YY o) (yys o) (XX o) (xxs o)
           (AA o) (aas o) (BB o) (bbs o) (SecByteBlock (U site_ee) len) len ;;
  let e := Integer_Decode ee len in
  sigma <-!
    unasserted
      match m_role D with
      | RoleServer =>
          let y := Integer_Decode ephemeralPrivateKey StaticPrivateKeyLength in
          let b := Integer_Decode staticPrivateKey StaticPrivateKeyLength in
          s_B <- Integer_mod (y + e * b) q ;;
          A <- decode_or_throw (AA o) false ;;
          X <- decode_or_throw (XX o) false ;;
          let t1 := ExponentiateElement params A d in
          let t2 := MultiplyElements params X t1 in
          Next (ExponentiateElement params t2 s_B)
      | RoleClient =>
          let x := Integer_Decode ephemeralPrivateKey StaticPrivateKeyLength in
          let a := Integer_Decode staticPrivateKey StaticPrivateKeyLength in
          s_A <- Integer_mod (x + d * a) q ;;
          B <- decode_or_throw (BB o) false ;;
          Y <- decode_or_throw (YY o) false ;;
          let t1 := ExponentiateElement params B e in
          let t2 := MultiplyElements params Y t1 in
          Next (ExponentiateElement params t2 s_A)
      end ;;
  Hash_asserting U (Some sigma) (XX o) (xxs o) (YY o) (yys o)
    (AA o) (aas o) (BB o) (bbs o) agreedValue AgreedValueLength.

(** [Agree] in the build with assertions. *)
Definition Agree_asserting (U : allocator) (agreedValue : bytes)
    (staticPrivateKey ephemeralPrivateKey
     staticOtherPublicKey ephemeralOtherPublicKey : bytes)
    (validateStaticOtherPublicKey : bool) : process :=
  match Agree_asserting_try U agreedValue staticPrivateKey ephemeralPrivateKey
          staticOtherPublicKey ephemeralOtherPublicKey
          validateStaticOtherPublicKey with
  | ANext written => Completed (Returned true written)
  | AReturn b => Completed (Returned b agreedValue)
  | AThrow DL_BadElement => Completed (Returned false agreedValue)
  | AThrow e => Completed (Raised e)
  | AAbort => Aborted
  end.

(** Whether a call gets past the two validations, to the first [Hash]. *)
Definition keys_accepted (staticOtherPublicKey ephemeralOtherPublicKey : bytes)
    (validateStaticOtherPublicKey : bool) : bool :=
  let params := GetAbstractGroupParameters in
  match DecodeElement params staticOtherPublicKey false,
        DecodeElement params ephemeralOtherPublicKey false with
  | Some VV1, Some VV2 =>
      ValidateElement params
        (if validateStaticOtherPublicKey then 3%N else 1%N) VV1
      && ValidateElement params 3%N VV2
  | _, _ => false
  end.

End Domain.

(** ** Instances to run the embedding on *)

(** Square-and-multiply modulo [m]. *)
Fixpoint powmod_pos (b : Z) (e : positive) (m : Z) : Z :=
  match e with
  | xH => b mod m
  | xO e' => let r := powmod_pos b e' m in (r * r) mod m
  | xI e' => let r := powmod_pos b e' m in ((r * r) mod m * b) mod m
  end.

Definition powmod (b e m : Z) : Z :=
  match e with
  | Zpos e' => powmod_pos b e' m
  | _ => 1 mod m
  end.

Module GFP.

(** The order-[q] subgroup generated by [g] in the integers modulo [p],
    after Crypto++'s [DL_GroupParameters_GFP]; elements are residues,
    encoded big-endian on as many bytes as [p] has.  Decoding rejects a
    value that is not reduced. *)
Definition Validate (p q : Z) (level : N) (E : Z) : bool :=
  (0 <? E) && (E <? p) && negb (E =? 1)
  && (if (2 <=? level)%N then powmod E q p =? 1 else true).

Definition Decode (p : Z) (encoded : bytes) (check : bool) : option Z :=
  let v := Integer_Decode encoded (ByteCount p) in
  if p <=? v then None else Some v.

Definition params (p q g : Z) : DL_GroupParameters Z :=
  {| GetGroupOrder := p - 1;
     GetSubgroupOrder := q;
     GetMaxExponent := q - 1;
     GetEncodedElementSize := fun _ => ByteCount p;
     ExponentiateBase := fun x => powmod g x p;
     ExponentiateElement := fun E x => powmod E x p;
     MultiplyElements := fun a b => (a * b) mod p;
     EncodeElement := fun _ E => Integer_Encode E (ByteCount p);
     DecodeElement := Decode p;
     ValidateElement := Validate p q |}.

End GFP.

(** An Adler-32 checksum as the hash: four digest bytes, big-endian. *)
Module Adler32.

Definition BASE : Z := 65521.

Definition Update (st : Z * Z) (b : byte) : Z * Z :=
  let s1 := (fst st + Z_of_byte b) mod BASE in
  (s1, (snd st + s1) mod BASE).

Definition digest (msg : bytes) : bytes :=
  let st := fold_left Update msg (1, 0) in
  Integer_Encode (snd st * 65536 + fst st) 4.

Definition hash : HashTransformation :=
  {| DIGESTSIZE := 4; Final := digest |}.

End Adler32.

(** A linear congruential generator; a draw lies in [[lo, hi]]. *)
Definition LCG : RandomNumberGenerator :=
  {| rng_state := Z;
     GenerateInteger := fun s lo hi =>
       let s' := (s * 6364136223846793005 + 1442695040888963407) mod 2 ^ 64 in
       (lo + s' mod (hi - lo + 1), s') |}.

Module Toy.

(** A 5-bit safe prime: challenges of one byte fit the digest. *)
Definition small (clientRole : bool) : FHMQV_Domain Z :=
  mk_FHMQV_Domain Adler32.hash (GFP.params 23 11 4) clientRole.

(** A 66-bit safe prime with the 65-bit subgroup order
    18446744073709552109: challenges take five bytes, the digest has four. *)
Definition q65 : Z := 18446744073709552109.
Definition p66 : Z := 2 * q65 + 1.

Definition large (clientRole : bool) : FHMQV_Domain Z :=
  mk_FHMQV_Domain Adler32.hash (GFP.params p66 q65 4) clientRole.

(** A 32-bit safe prime with a 31-bit subgroup order: challenges of two
    bytes fit the digest and are not zero. *)
Definition q31 : Z := 1073741891.
Definition p32 : Z := 2 * q31 + 1.

Definition medium (clientRole : bool) : FHMQV_Domain Z :=
  mk_FHMQV_Domain Adler32.hash (GFP.params p32 q31 4) clientRole.


(** Two allocators: fresh zero pages, and memory full of 0xff. *)
Definition U_zero : allocator := fun _ => [].
Definition U_ff : allocator := fun _ => repeat xff 64.

Definition blank (n : N) : bytes := repeat x00 (N.to_nat n).

(** Key material made by the domain's own generators from a seed. *)
Definition static_private (D : FHMQV_Domain Z) (seed : Z) : bytes :=
  snd (GenerateStaticPrivateKey D LCG seed (blank (StaticPrivateKeyLength D))).
Definition static_public (D : FHMQV_Domain Z) (priv : bytes) : bytes :=
  snd (GenerateStaticPublicKey D LCG 0 priv (blank (StaticPublicKeyLength D))).
Definition ephemeral_private (D : FHMQV_Domain Z) (seed : Z) : bytes :=
  snd (GenerateEphemeralPrivateKey D LCG seed (blank (EphemeralPrivateKeyLength D))).
Definition ephemeral_public (D : FHMQV_Domain Z) (priv : bytes) : bytes :=
  snd (GenerateEphemeralPublicKey D LCG 0 priv (blank (EphemeralPublicKeyLength D))).

(** One session: the Client holds [a] and [x], the Server [b] and [y]. *)
Section Session.
Variable dom : bool -> FHMQV_Domain Z.
Definition a := static_private (dom true) 1.
Definition A := static_public (dom true) a.
Definition x := ephemeral_private (dom true) 2.
Definition X := ephemeral_public (dom true) x.
Definition b := static_private (dom false) 3.
Definition B := static_public (dom false) b.
Definition y := ephemeral_private (dom false) 4.
Definition Y := ephemeral_public (dom false) y.

Definition client_run (U : allocator) (validate : bool) : outcome :=
  Agree (dom true) U (blank (AgreedValueLength (dom true))) a x B Y validate.
Definition server_run (U : allocator) (validate : bool) : outcome :=
  Agree (dom false) U (blank (AgreedValueLength (dom false))) b y A X validate.
End Session.

(** In the small group: the element of order two, which lies outside the
    subgroup, and an encoding that is no residue. *)
Definition outside_subgroup : bytes := [byte_of_Z 22].

End Toy.

(** ** The statements of the specification, written independently *)

(** The ceiling of [a / b]. *)
Definition ceil_div (a b : N) : N := ((a + b - 1) / b)%N.

(** "ceil(ceil((bitlength(q)+1)/2)/8)", as the specification words it. *)
Definition spec_challenge_len (q : Z) : N :=
  ceil_div (ceil_div (BitCount q + 1) 2) 8.

(** "ceil(ceil(bitlength(q)/2)/8)": half the bit length, rounded up. *)
Definition half_bitlength_bytes (q : Z) : N :=
  ceil_div (ceil_div (BitCount q) 2) 8.

(** The order of the NIST P-256 base point. *)
Definition P256_order : Z :=
  0xFFFFFFFF00000000FFFFFFFFFFFFFFFFBCE6FAADA7179E84F3B9CAC2FC632551.

(** The last [n] bytes of a blob. *)
Definition trailing (n : N) (blob : bytes) : bytes :=
  skipn (length blob - N.to_nat n) blob.

(** The validation level [Agree] is to apply to the static key. *)
Definition static_level (validateStaticOtherPublicKey : bool) : N :=
  if validateStaticOtherPublicKey then 3%N else 1%N.

Section SpecChallenges.

Context {Element : Type}.
Variable D : FHMQV_Domain Element.

(** "Hash(0, e1, e2, s1, s2) truncated to len bytes, interpreted as a
    big-endian integer". *)
Definition spec_challenge (e1 e2 s1 s2 : bytes) : Z :=
  let len := challenge_len (GetSubgroupOrder (m_groupParameters D)) in
  let h := take len (Final (HASH D) (e1 ++ e2 ++ s1 ++ s2)) in
  Integer_Decode h (N.of_nat (length h)).

(** "Hash(sigma, X, Y, A, B) truncated to the digest size". *)
Definition spec_agreed_value (sigma : Element) (X Y A B : bytes) : bytes :=
  take (DIGESTSIZE (HASH D))
    (Final (HASH D)
       (EncodeElement (m_groupParameters D) true sigma ++ X ++ Y ++ A ++ B)).

(** The shared element of the specification for the role of [D], from the
    own private key bytes, the two challenges and the counterpart's
    decoded static and ephemeral elements:
    Client [(Y * B^e)^((x + d*a) mod q)], Server [(X * A^d)^((y + e*b) mod q)]. *)
Definition spec_sigma (staticPrivateKey ephemeralPrivateKey : bytes)
    (d e : Z) (otherStatic otherEphemeral : Element) : Element :=
  let P := m_groupParameters D in
  let q := GetSubgroupOrder P in
  let n := StaticPrivateKeyLength D in
  match m_role D with
  | RoleClient =>
      let a := Integer_Decode staticPrivateKey n in
      let x := Integer_Decode (take n ephemeralPrivateKey) n in
      let B := otherStatic in
      let Y := otherEphemeral in
      ExponentiateElement P (MultiplyElements P Y (ExponentiateElement P B e))
        ((x + d * a) mod q)
  | RoleServer =>
      let b := Integer_Decode staticPrivateKey n in
      let y := Integer_Decode (take n ephemeralPrivateKey) n in
      let A := otherStatic in
      let X := otherEphemeral in
      ExponentiateElement P (MultiplyElements P X (ExponentiateElement P A d))
        ((y + e * b) mod q)
  end.

End SpecChallenges.

(** What the protocol needs of the group behind the parameters: the base
    generates a subgroup of order [q] in which the exponent laws hold, an
    encoding fills its announced size and decodes back. *)
Record group_laws {Element} (P : DL_GroupParameters Element) : Prop := {
  subgroup_order_pos : 0 < GetSubgroupOrder P;
  base_mul : forall j k, 0 <= j -> 0 <= k ->
    MultiplyElements P (ExponentiateBase P j) (ExponentiateBase P k)
    = ExponentiateBase P (j + k);
  base_exp : forall j k, 0 <= j -> 0 <= k ->
    ExponentiateElement P (ExponentiateBase P j) k = ExponentiateBase P (j * k);
  base_order : forall k, 0 <= k ->
    ExponentiateBase P (k mod GetSubgroupOrder P) = ExponentiateBase P k;
  encode_size : forall E,
    length (EncodeElement P true E) = N.to_nat (GetEncodedElementSize P true);
  decode_encode : forall k, 0 <= k ->
    DecodeElement P (EncodeElement P true (ExponentiateBase P k)) false
    = Some (ExponentiateBase P k)
}.

(** The hash yields digests of its native size. *)
Definition hash_sized (H : HashTransformation) : Prop :=
  forall msg, length (Final H msg) = N.to_nat (DIGESTSIZE H).

(** * Properties *)

(** ** Buffers *)

Lemma take_length_le (n : N) (p : bytes) :
  (N.to_nat n <= length p)%nat -> length (take n p) = N.to_nat n.
Proof. intro H. unfold take. rewrite length_firstn. lia. Qed.

Lemma take_all (n : N) (p : bytes) :
  (length p <= N.to_nat n)%nat -> take n p = p.
Proof. intro H. unfold take. now apply firstn_all2. Qed.

Lemma take_app_exact (n : N) (p rest : bytes) :
  length p = N.to_nat n -> take n (p ++ rest) = p.
Proof.
  intro H. unfold take. rewrite <- H, firstn_app, Nat.sub_diag, firstn_all.
  simpl. apply app_nil_r.
Qed.

Lemma drop_app_exact (n : N) (p rest : bytes) :
  length p = N.to_nat n -> drop n (p ++ rest) = rest.
Proof.
  intro H. unfold drop. rewrite <- H, skipn_app, Nat.sub_diag, skipn_all.
  reflexivity.
Qed.

Lemma SecByteBlock_length (uninit : bytes) (n : N) :
  length (SecByteBlock uninit n) = N.to_nat n.
Proof.
  unfold SecByteBlock. apply take_length_le.
  rewrite length_app, repeat_length. lia.
Qed.

Lemma mem_write_0 (buf data : bytes) :
  mem_write buf 0 data = data ++ skipn (length data) buf.
Proof. reflexivity. Qed.

(** A store that covers the whole buffer leaves nothing of the old contents. *)
Lemma mem_write_fill (buf data : bytes) :
  length data = length buf -> mem_write buf 0 data = data.
Proof.
  intro H. rewrite mem_write_0, H, skipn_all. apply app_nil_r.
Qed.

Lemma mem_write_append (buf data : bytes) (off : N) :
  (N.to_nat off <= length buf)%nat ->
  (length buf <= N.to_nat off + length data)%nat ->
  mem_write buf off data = take off buf ++ data.
Proof.
  intros _ H. unfold mem_write. rewrite (skipn_all2 buf) by lia.
  now rewrite app_nil_r.
Qed.

Lemma trailing_app (n : N) (p s : bytes) :
  length s = N.to_nat n -> trailing n (p ++ s) = s.
Proof.
  intro H. unfold trailing. rewrite length_app, <- H.
  replace (length p + length s - length s)%nat with (length p) by lia.
  rewrite skipn_app, Nat.sub_diag, skipn_all. reflexivity.
Qed.

Lemma Integer_Encode_length (x : Z) (n : N) :
  length (Integer_Encode x n) = N.to_nat n.
Proof.
  unfold Integer_Encode. induction (N.to_nat n) as [|k IH]; simpl; congruence.
Qed.

Lemma u32_small (n : N) : (n < 2 ^ 32)%N -> u32 n = n.
Proof. intro H. unfold u32. now apply N.mod_small. Qed.

(** ** Lengths *)

(** C7. The three length invariants.  The ephemeral private length is
    the [unsigned int] sum of the static private and static public
    lengths, which is their sum whenever it fits 32 bits; the ephemeral
    public length is the static public length; the agreed value has the
    native digest size of the hash. *)
Theorem length_invariants {Element} (D : FHMQV_Domain Element) :
  EphemeralPrivateKeyLength D
    = u32 (StaticPrivateKeyLength D + StaticPublicKeyLength D)
  /\ ((StaticPrivateKeyLength D + StaticPublicKeyLength D < 2 ^ 32)%N ->
      EphemeralPrivateKeyLength D
      = (StaticPrivateKeyLength D + StaticPublicKeyLength D)%N)
  /\ EphemeralPublicKeyLength D = StaticPublicKeyLength D
  /\ AgreedValueLength D = DIGESTSIZE (HASH D).
Proof.
  repeat split. intro H. unfold EphemeralPrivateKeyLength. now apply u32_small.
Qed.

Lemma length_invariants_witness :
  EphemeralPrivateKeyLength (Toy.large true) = 18%N
  /\ StaticPrivateKeyLength (Toy.large true) = 9%N
  /\ StaticPublicKeyLength (Toy.large true) = 9%N
  /\ EphemeralPublicKeyLength (Toy.large true) = 9%N
  /\ AgreedValueLength (Toy.large true) = 4%N.
Proof.
  destruct (length_invariants (Toy.large true)) as (_ & Hsum & Hpub & Hav).
  rewrite Hsum, Hpub, Hav by (vm_compute; reflexivity).
  vm_compute. repeat split.
Defined.

(** ** The challenge length *)

Lemma ceil_div_spec (a b : N) :
  (0 < b)%N -> (a <= b * ceil_div a b /\ b * ceil_div a b < a + b)%N.
Proof.
  intro Hb. unfold ceil_div.
  pose proof (N.Div0.div_mod (a + b - 1) b) as E.
  assert (B : ((a + b - 1) mod b < b)%N) by (apply N.mod_upper_bound; lia).
  revert E B.
  generalize ((a + b - 1) / b)%N ((a + b - 1) mod b)%N. intros t r E B.
  generalize dependent (b * t)%N. intros. lia.
Qed.

Lemma floor_succ_half (n : N) : ((n + 1) / 2 = ceil_div n 2)%N.
Proof. unfold ceil_div. f_equal. lia. Qed.

(** C4, as the code has it.  For a subgroup order whose bit length plus one
    fits an [unsigned int], the challenge length is
    ceil(ceil(bitlength(q)/2)/8): half the bit length rounded up to whole
    bits, then to whole bytes. *)
Theorem challenge_len_half_bitlength (q : Z) :
  (BitCount q + 1 < 2 ^ 32)%N ->
  challenge_len q = half_bitlength_bytes q.
Proof.
  intro H. unfold challenge_len, half_bitlength_bytes.
  rewrite u32_small by exact H.
  rewrite floor_succ_half. generalize (ceil_div (BitCount q) 2). intro h.
  unfold ceil_div. f_equal. lia.
Qed.

Lemma challenge_len_half_bitlength_witness :
  (BitCount P256_order + 1 < 2 ^ 32)%N
  /\ challenge_len P256_order = half_bitlength_bytes P256_order
  /\ challenge_len P256_order = 16%N.
Proof.
  assert (H : (BitCount P256_order + 1 < 2 ^ 32)%N) by (vm_compute; reflexivity).
  split; [exact H|]. split.
  - exact (challenge_len_half_bitlength P256_order H).
  - vm_compute. reflexivity.
Defined.

(** C4, as the specification words it, fails: for the 256-bit order of
    P-256 the code takes 16 bytes where ceil(ceil(257/2)/8) is 17. *)
Lemma challenge_len_not_spec_formula :
  BitCount P256_order = 256%N
  /\ challenge_len P256_order = 16%N
  /\ spec_challenge_len P256_order = 17%N
  /\ ~ (forall q, challenge_len q = spec_challenge_len q).
Proof.
  repeat split; try (vm_compute; reflexivity).
  intro H. specialize (H P256_order). vm_compute in H. discriminate.
Qed.

(** ** Key generation *)

(** C10. The two public-key generators do not use the generator they are
    handed: whatever the generator and its state, the bytes stored are
    the same, and the state comes back untouched. *)
Theorem public_keys_ignore_rng {Element} (D : FHMQV_Domain Element)
    (R1 R2 : RandomNumberGenerator)
    (rng1 : rng_state R1) (rng2 : rng_state R2) (privateKey publicKey : bytes) :
  snd (GenerateStaticPublicKey D R1 rng1 privateKey publicKey)
    = snd (GenerateStaticPublicKey D R2 rng2 privateKey publicKey)
  /\ snd (GenerateEphemeralPublicKey D R1 rng1 privateKey publicKey)
    = snd (GenerateEphemeralPublicKey D R2 rng2 privateKey publicKey)
  /\ fst (GenerateStaticPublicKey D R1 rng1 privateKey publicKey) = rng1
  /\ fst (GenerateEphemeralPublicKey D R1 rng1 privateKey publicKey) = rng1.
Proof. repeat split. Qed.

Section EphemeralKeys.

Context {Element : Type}.
Variable D : FHMQV_Domain Element.
Variable R : RandomNumberGenerator.

Hypothesis encoded_size : forall E,
  length (EncodeElement (m_groupParameters D) true E)
  = N.to_nat (StaticPublicKeyLength D).

(** A buffer of the ephemeral private length comes back as the encoded
    scalar followed by the encoded public element. *)
Lemma GenerateEphemeralPrivateKey_layout (rng : rng_state R) (buf : bytes) :
  length buf = N.to_nat (StaticPrivateKeyLength D + StaticPublicKeyLength D) ->
  exists x rng',
    GenerateInteger R rng 1 (GetMaxExponent (m_groupParameters D)) = (x, rng')
    /\ GenerateEphemeralPrivateKey D R rng buf
       = (rng', Integer_Encode x (StaticPrivateKeyLength D)
                ++ EncodeElement (m_groupParameters D) true
                     (ExponentiateBase (m_groupParameters D) x)).
Proof.
  intro Hlen. unfold GenerateEphemeralPrivateKey, GetAbstractGroupParameters.
  destruct (GenerateInteger R rng 1 _) as [x rng'].
  exists x, rng'. split; [reflexivity|]. f_equal.
  set (sc := Integer_Encode x (StaticPrivateKeyLength D)).
  set (el := EncodeElement _ true _).
  assert (Hsc : length sc = N.to_nat (StaticPrivateKeyLength D))
    by apply Integer_Encode_length.
  assert (Hel : length el = N.to_nat (StaticPublicKeyLength D))
    by apply encoded_size.
  rewrite (mem_write_0 buf sc).
  rewrite mem_write_append.
  - now rewrite take_app_exact.
  - rewrite length_app, length_skipn. lia.
  - rewrite length_app, length_skipn. lia.
Qed.

End EphemeralKeys.

(** C8. For a blob made by [GenerateEphemeralPrivateKey] in a buffer of the
    ephemeral private length, [GenerateEphemeralPublicKey] stores the
    trailing [StaticPublicKeyLength()] bytes of the blob at the start of
    its output buffer, and they are the whole output when that buffer has
    the ephemeral public length. *)
Theorem ephemeral_public_is_trailing_slice {Element} (D : FHMQV_Domain Element)
    (R : RandomNumberGenerator) (rng rng2 : rng_state R) (buf publicKey : bytes) :
  (forall E, length (EncodeElement (m_groupParameters D) true E)
             = N.to_nat (StaticPublicKeyLength D)) ->
  (StaticPrivateKeyLength D + StaticPublicKeyLength D < 2 ^ 32)%N ->
  length buf = N.to_nat (EphemeralPrivateKeyLength D) ->
  let sk := snd (GenerateEphemeralPrivateKey D R rng buf) in
  let out := snd (GenerateEphemeralPublicKey D R rng2 sk publicKey) in
  length sk = length buf
  /\ take (EphemeralPublicKeyLength D) out = trailing (StaticPublicKeyLength D) sk
  /\ (length publicKey = N.to_nat (EphemeralPublicKeyLength D) ->
      out = trailing (StaticPublicKeyLength D) sk).
Proof.
  intros Henc Hfit Hbuf sk out.
  unfold EphemeralPrivateKeyLength in Hbuf. rewrite u32_small in Hbuf by exact Hfit.
  destruct (GenerateEphemeralPrivateKey_layout D R Henc rng buf Hbuf)
    as (x & rng' & _ & Hsk).
  assert (Esk : sk = Integer_Encode x (StaticPrivateKeyLength D)
                     ++ EncodeElement (m_groupParameters D) true
                          (ExponentiateBase (m_groupParameters D) x))
    by (subst sk; now rewrite Hsk).
  assert (Eout : out = mem_write publicKey 0
                         (EncodeElement (m_groupParameters D) true
                            (ExponentiateBase (m_groupParameters D) x))).
  { subst out. unfold GenerateEphemeralPublicKey, memcpy. simpl snd.
    rewrite Esk, drop_app_exact by apply Integer_Encode_length.
    unfold EphemeralPublicKeyLength. rewrite take_all; [reflexivity|].
    rewrite Henc. lia. }
  rewrite Eout, Esk, trailing_app by apply Henc.
  split; [|split].
  - rewrite length_app, Integer_Encode_length, Henc, Hbuf. lia.
  - rewrite mem_write_0. unfold EphemeralPublicKeyLength.
    apply take_app_exact, Henc.
  - intro Hpub. apply mem_write_fill. rewrite Henc, Hpub. reflexivity.
Qed.

(** ** Agree: control flow *)

Section AgreeFlow.

Context {Element : Type}.
Variable D : FHMQV_Domain Element.

Let P := m_groupParameters D.
Let q := GetSubgroupOrder P.
Let n := StaticPrivateKeyLength D.

Lemma Integer_Decode_take (enc : bytes) (k : N) :
  Integer_Decode (take k enc) k = Integer_Decode enc k.
Proof.
  unfold Integer_Decode, take. now rewrite firstn_firstn, Nat.min_id.
Qed.

Variable U : allocator.
Variables agreedValue staticPrivateKey ephemeralPrivateKey : bytes.
Variables staticOtherPublicKey ephemeralOtherPublicKey : bytes.
Variable validate : bool.

Let o := label_operands D U staticPrivateKey ephemeralPrivateKey
           staticOtherPublicKey ephemeralOtherPublicKey.

Let run := Agree D U agreedValue staticPrivateKey ephemeralPrivateKey
             staticOtherPublicKey ephemeralOtherPublicKey validate.

(** Every way through [Agree], in the order the code takes them. *)
Lemma Agree_paths :
  run =
  match DecodeElement P staticOtherPublicKey false with
  | None => Returned false agreedValue
  | Some VV1 =>
    if ValidateElement P (static_level validate) VV1 then
      match DecodeElement P ephemeralOtherPublicKey false with
      | None => Returned false agreedValue
      | Some VV2 =>
        if ValidateElement P 3%N VV2 then
          if q =? 0 then Raised Integer_DivideByZero
          else
            let sigma := spec_sigma D staticPrivateKey ephemeralPrivateKey
                           (challenge_d D U o) (challenge_e D U o) VV1 VV2 in
            Returned true
              (Hash D U (Some sigma) (XX o) (xxs o) (YY o) (yys o)
                    (AA o) (aas o) (BB o) (bbs o)
                    agreedValue (AgreedValueLength D))
        else Returned false agreedValue
      end
    else Returned false agreedValue
  end.
Proof.
  subst run. unfold Agree, Agree_try, decode_or_throw, GetAbstractGroupParameters.
  fold P. fold o. fold q. fold n. unfold static_level.
  destruct (DecodeElement P staticOtherPublicKey false) as [VV1|] eqn:HS;
    simpl; [|reflexivity].
  destruct (ValidateElement P (if validate then 3%N else 1%N) VV1);
    simpl; [|reflexivity].
  destruct (DecodeElement P ephemeralOtherPublicKey false) as [VV2|] eqn:HE;
    simpl; [|reflexivity].
  destruct (ValidateElement P 3%N VV2); simpl; [|reflexivity].
  unfold spec_sigma, Integer_mod. cbv zeta. fold P q n.
  rewrite Integer_Decode_take.
  destruct (m_role D) eqn:Hrole; destruct (q =? 0); simpl; try reflexivity.
  - assert (HA : AA o = staticOtherPublicKey)
      by (subst o; unfold label_operands; now rewrite Hrole).
    assert (HX : XX o = ephemeralOtherPublicKey)
      by (subst o; unfold label_operands; now rewrite Hrole).
    rewrite HA, HX. fold P. rewrite HS, HE. reflexivity.
  - assert (HB : BB o = staticOtherPublicKey)
      by (subst o; unfold label_operands; now rewrite Hrole).
    assert (HY : YY o = ephemeralOtherPublicKey)
      by (subst o; unfold label_operands; now rewrite Hrole).
    rewrite HB, HY. fold P. rewrite HS, HE. reflexivity.
Qed.

End AgreeFlow.

(** ** Agree: the build with assertions *)

Lemma Hash_assert_agreed_value {Element} (D : FHMQV_Domain Element) :
  Hash_assert D (AgreedValueLength D) = true.
Proof. unfold Hash_assert, AgreedValueLength. apply N.leb_refl. Qed.

(** The build with assertions aborts when a call gets past the two
    validations with a challenge length above the digest size; in every
    other case it comes back with what the build without assertions
    returns or raises. *)
Lemma Agree_asserting_cases {Element} (D : FHMQV_Domain Element)
    (U : allocator) (agreedValue staticPrivateKey ephemeralPrivateKey
     staticOtherPublicKey ephemeralOtherPublicKey : bytes) (validate : bool) :
  Agree_asserting D U agreedValue staticPrivateKey ephemeralPrivateKey
    staticOtherPublicKey ephemeralOtherPublicKey validate
  = if keys_accepted D staticOtherPublicKey ephemeralOtherPublicKey validate
       && negb (Hash_assert D
                  (challenge_len (GetSubgroupOrder (m_groupParameters D))))
    then Aborted
    else Completed
           (Agree D U agreedValue staticPrivateKey ephemeralPrivateKey
              staticOtherPublicKey ephemeralOtherPublicKey validate).
Proof.
  unfold Agree_asserting, Agree_asserting_try, Agree, Agree_try, keys_accepted,
    decode_or_throw, Hash_asserting, challenge_d, challenge_e,
    GetAbstractGroupParameters.
  set (P := m_groupParameters D).
  destruct (DecodeElement P staticOtherPublicKey false) as [VV1|];
    [|reflexivity].
  cbn [unasserted abind bind].
  destruct (ValidateElement P (if validate then 3%N else 1%N) VV1);
    cbn [negb andb];
    [|destruct (DecodeElement P ephemeralOtherPublicKey false); reflexivity].
  destruct (DecodeElement P ephemeralOtherPublicKey false) as [VV2|];
    [|reflexivity].
  cbn [unasserted abind bind].
  destruct (ValidateElement P 3%N VV2); cbn [negb andb]; [|reflexivity].
  destruct (Hash_assert D (challenge_len (GetSubgroupOrder P)));
    cbn [negb abind]; [|reflexivity].
  rewrite Hash_assert_agreed_value.
  match goal with
  | |- context [unasserted ?c] => destruct c as [sigma|ret|ex]
  end; cbn [unasserted abind bind]; try reflexivity.
  destruct ex; reflexivity.
Qed.

(** ** Agree: validation, failure, shared element *)

(** C5. The counterpart's static key is checked at level 3 when
    [validateStaticOtherPublicKey] holds and at level 1 otherwise, its
    ephemeral key always at level 3: a key that decodes to an element
    failing its level makes [Agree] return false, and a successful run
    has decoded both keys to elements passing their levels. *)
Theorem Agree_validation_levels {Element} (D : FHMQV_Domain Element)
    (U : allocator) (agreedValue staticPrivateKey ephemeralPrivateKey
     staticOtherPublicKey ephemeralOtherPublicKey : bytes) (validate : bool) :
  let P := m_groupParameters D in
  let run := Agree D U agreedValue staticPrivateKey ephemeralPrivateKey
               staticOtherPublicKey ephemeralOtherPublicKey validate in
  static_level true = 3%N /\ static_level false = 1%N
  /\ (forall VV1, DecodeElement P staticOtherPublicKey false = Some VV1 ->
       ValidateElement P (static_level validate) VV1 = false ->
       run = Returned false agreedValue)
  /\ (forall VV2, DecodeElement P ephemeralOtherPublicKey false = Some VV2 ->
       ValidateElement P 3%N VV2 = false ->
       run = Returned false agreedValue)
  /\ (forall written, run = Returned true written ->
       exists VV1 VV2,
         DecodeElement P staticOtherPublicKey false = Some VV1
         /\ ValidateElement P (static_level validate) VV1 = true
         /\ DecodeElement P ephemeralOtherPublicKey false = Some VV2
         /\ ValidateElement P 3%N VV2 = true).
Proof.
  intros P run. subst run. rewrite Agree_paths. fold P.
  split; [reflexivity|]. split; [reflexivity|]. split; [|split].
  - intros VV1 H1 V1. now rewrite H1, V1.
  - intros VV2 H2 V2. rewrite H2, V2.
    destruct (DecodeElement P staticOtherPublicKey false) as [VV1|];
      [destruct (ValidateElement P (static_level validate) VV1)|]; reflexivity.
  - intros written.
    destruct (DecodeElement P staticOtherPublicKey false) as [VV1|];
      [|discriminate].
    destruct (ValidateElement P (static_level validate) VV1) eqn:V1;
      [|discriminate].
    destruct (DecodeElement P ephemeralOtherPublicKey false) as [VV2|];
      [|discriminate].
    destruct (ValidateElement P 3%N VV2) eqn:V2; [|discriminate].
    intros _. exists VV1, VV2. auto.
Qed.



(** ** Integers and their encodings *)

Lemma Z_of_byte_range (c : byte) : 0 <= Z_of_byte c < 256.
Proof. unfold Z_of_byte. pose proof (Byte.to_N_bounded c). lia. Qed.

Lemma Z_of_byte_of_Z (z : Z) : Z_of_byte (byte_of_Z z) = z mod 256.
Proof.
  unfold Z_of_byte, byte_of_Z.
  assert (R : 0 <= z mod 256 < 256) by (apply Z.mod_pos_bound; lia).
  destruct (Byte.of_N (Z.to_N (z mod 256))) as [c|] eqn:E.
  - apply Byte.to_of_N in E. rewrite E. lia.
  - apply Byte.of_N_None_iff in E. lia.
Qed.

Lemma decode_fold_nonneg (l : bytes) (acc : Z) :
  0 <= acc -> 0 <= fold_left (fun acc c => acc * 256 + Z_of_byte c) l acc.
Proof.
  revert acc. induction l as [|c l IH]; intros acc H; simpl; [exact H|].
  apply IH. pose proof (Z_of_byte_range c). lia.
Qed.

Lemma Integer_Decode_nonneg (enc : bytes) (k : N) : 0 <= Integer_Decode enc k.
Proof. apply decode_fold_nonneg. lia. Qed.

Lemma decode_fold_encode (x : Z) (k : nat) (acc : Z) :
  fold_left (fun acc c => acc * 256 + Z_of_byte c) (Integer_Encode_nat x k) acc
  = acc * 256 ^ Z.of_nat k + x mod 256 ^ Z.of_nat k.
Proof.
  revert acc. induction k as [|k IH]; intro acc.
  - simpl. rewrite Z.mod_1_r. lia.
  - cbn [Integer_Encode_nat fold_left]. rewrite IH, Z_of_byte_of_Z.
    rewrite Z.shiftr_div_pow2 by lia.
    replace (2 ^ (8 * Z.of_nat k)) with (256 ^ Z.of_nat k)
      by (change 256 with (2 ^ 8); rewrite <- Z.pow_mul_r; lia).
    replace (Z.of_nat (S k)) with (Z.of_nat k + 1) by lia.
    rewrite Z.pow_add_r, Z.pow_1_r by lia.
    assert (Hpos : 0 < 256 ^ Z.of_nat k) by (apply Z.pow_pos_nonneg; lia).
    rewrite (Z.rem_mul_r x (256 ^ Z.of_nat k) 256) by lia.
    ring.
Qed.

(** Decoding an encoding gives the integer back up to the width. *)
Lemma Integer_Decode_Encode (x : Z) (k : N) :
  Integer_Decode (Integer_Encode x k) k = x mod 256 ^ Z.of_N k.
Proof.
  unfold Integer_Decode. rewrite take_all by (rewrite Integer_Encode_length; lia).
  unfold Integer_Encode. rewrite decode_fold_encode.
  rewrite N_nat_Z. lia.
Qed.

Lemma Integer_Decode_Encode_small (x : Z) (k : N) :
  0 <= x < 256 ^ Z.of_N k -> Integer_Decode (Integer_Encode x k) k = x.
Proof. intro H. rewrite Integer_Decode_Encode. now apply Z.mod_small. Qed.

(** An integer fits the bytes [ByteCount] counts for it. *)
Lemma ByteCount_fits (x : Z) : 0 <= x -> x < 256 ^ Z.of_N (ByteCount x).
Proof.
  intro H. unfold ByteCount, BitCount.
  pose proof (N.size_gt (Z.abs_N x)) as G.
  set (s := N.size (Z.abs_N x)) in *.
  assert (L : (s <= 8 * ((s + 7) / 8))%N).
  { pose proof (N.Div0.div_mod (s + 7) 8).
    pose proof (N.mod_upper_bound (s + 7) 8). lia. }
  assert (G' : x < 2 ^ Z.of_N s).
  { apply N2Z.inj_lt in G. rewrite N2Z.inj_pow, N2Z.inj_abs_N in G.
    change (Z.of_N 2) with 2 in G. lia. }
  eapply Z.lt_le_trans; [exact G'|].
  change 256 with (2 ^ 8). rewrite <- Z.pow_mul_r by lia.
  apply Z.pow_le_mono_r; lia.
Qed.

(** ** The residue group *)

Lemma powmod_pos_spec (c : Z) (e : positive) (m : Z) :
  powmod_pos c e m = c ^ Zpos e mod m.
Proof.
  induction e as [e IH|e IH|]; cbn [powmod_pos].
  - rewrite IH, Pos2Z.inj_xI.
    rewrite Z.pow_add_r, Z.pow_1_r, Z.pow_twice_r by lia.
    now rewrite <- Zmult_mod, Zmult_mod_idemp_l.
  - rewrite IH, Pos2Z.inj_xO, Z.pow_twice_r.
    now rewrite <- Zmult_mod.
  - now rewrite Z.pow_1_r.
Qed.

Lemma powmod_spec (c e m : Z) : 0 <= e -> powmod c e m = c ^ e mod m.
Proof.
  intro H. destruct e as [|e|e]; [reflexivity|apply powmod_pos_spec|lia].
Qed.

Lemma powmod_range (c e m : Z) : 0 < m -> 0 <= e -> 0 <= powmod c e m < m.
Proof. intros Hm He. rewrite powmod_spec by exact He. now apply Z.mod_pos_bound. Qed.

(** The laws hold in the residue group as soon as the base has order [q]
    modulo [p]. *)
Lemma GFP_group_laws (p q g : Z) :
  1 < p -> 0 < q -> powmod g q p = 1 -> group_laws (GFP.params p q g).
Proof.
  intros Hp Hq Hord.
  assert (Hord' : g ^ q mod p = 1) by (rewrite <- powmod_spec; [exact Hord|lia]).
  constructor; cbn [GetSubgroupOrder MultiplyElements ExponentiateBase
                    ExponentiateElement EncodeElement DecodeElement
                    GetEncodedElementSize GFP.params].
  - exact Hq.
  - intros j k Hj Hk. rewrite !powmod_spec by lia.
    rewrite <- Z.mul_mod by lia. now rewrite Z.pow_add_r.
  - intros j k Hj Hk. rewrite !powmod_spec by lia.
    rewrite Z.mod_pow_l. now rewrite Z.pow_mul_r.
  - intros k Hk.
    assert (0 <= k mod q < q) by (apply Z.mod_pos_bound; lia).
    assert (0 <= k / q) by (apply Z.div_pos; lia).
    rewrite !powmod_spec by lia.
    replace (g ^ k) with ((g ^ q) ^ (k / q) * g ^ (k mod q)).
    + rewrite <- (Z.mul_mod_idemp_l ((g ^ q) ^ (k / q))) by lia.
      rewrite <- (Z.mod_pow_l (g ^ q)), Hord', Z.pow_1_l by lia.
      rewrite Z.mul_mod_idemp_l by lia. f_equal. lia.
    + rewrite <- Z.pow_mul_r, <- Z.pow_add_r by lia.
      f_equal. symmetry. apply Z.div_mod. lia.
  - intro E. apply Integer_Encode_length.
  - intros k Hk. unfold GFP.Decode.
    pose proof (powmod_range g k p ltac:(lia) Hk) as R.
    pose proof (ByteCount_fits p ltac:(lia)) as F.
    rewrite Integer_Decode_Encode_small by lia.
    destruct (p <=? powmod g k p) eqn:C; [apply Z.leb_le in C; lia|reflexivity].
Qed.

Lemma Adler32_sized : hash_sized Adler32.hash.
Proof. intro msg. apply Integer_Encode_length. Qed.

(** ** What the digests cover *)

Section Covered.

Context {Element : Type}.
Variable D : FHMQV_Domain Element.

Let P := m_groupParameters D.
Let len := challenge_len (GetSubgroupOrder P).

Hypothesis sized : hash_sized (HASH D).
Hypothesis encoded : forall E,
  length (EncodeElement P true E) = N.to_nat (StaticPublicKeyLength D).

(** With [sigma], [Hash] feeds the encoding of [sigma] and the four
    operands, and stores as much of the digest as was asked for. *)
Lemma Hash_sigma (U : allocator) (sigma : Element)
    (e1 : bytes) (e1len : N) (e2 : bytes) (e2len : N)
    (s1 : bytes) (s1len : N) (s2 : bytes) (s2len : N)
    (digest : bytes) (dlen : N) :
  Hash D U (Some sigma) e1 e1len e2 e2len s1 s1len s2 s2len digest dlen
  = mem_write digest 0
      (take (N.min dlen (DIGESTSIZE (HASH D)))
         (Final (HASH D)
            (EncodeElement P true sigma ++ take e1len e1 ++ take e2len e2
               ++ take s1len s1 ++ take s2len s2))).
Proof.
  unfold Hash, GetAbstractGroupParameters. fold P. cbv zeta.
  rewrite (mem_write_fill (SecByteBlock _ _))
    by (rewrite SecByteBlock_length; apply encoded).
  rewrite (take_all _ (EncodeElement P true sigma))
    by (rewrite encoded; unfold StaticPublicKeyLength,
          GetAbstractGroupParameters; fold P; lia).
  reflexivity.
Qed.

(** Without [sigma], a digest buffer no longer than the native digest is
    overwritten whole. *)
Lemma Hash_challenge (U : allocator)
    (e1 : bytes) (e1len : N) (e2 : bytes) (e2len : N)
    (s1 : bytes) (s1len : N) (s2 : bytes) (s2len : N)
    (digest : bytes) (dlen : N) :
  Hash_assert D dlen = true -> length digest = N.to_nat dlen ->
  Hash D U None e1 e1len e2 e2len s1 s1len s2 s2len digest dlen
  = take dlen (Final (HASH D)
                 (take e1len e1 ++ take e2len e2
                    ++ take s1len s1 ++ take s2len s2)).
Proof.
  unfold Hash_assert. intros Ha Hd. apply N.leb_le in Ha.
  unfold Hash. cbv zeta. rewrite N.min_l by exact Ha. cbn [app].
  apply mem_write_fill. rewrite Hd. apply take_length_le.
  rewrite sized. lia.
Qed.

(** When the challenge length does not exceed the digest size, [d] and
    [e] are the truncated digests of the specification. *)
Lemma challenges_covered (U : allocator) (o : operands) :
  Hash_assert D len = true ->
  challenge_d D U o
    = spec_challenge D (take (xxs o) (XX o)) (take (yys o) (YY o))
                       (take (aas o) (AA o)) (take (bbs o) (BB o))
  /\ challenge_e D U o
    = spec_challenge D (take (yys o) (YY o)) (take (xxs o) (XX o))
                       (take (aas o) (AA o)) (take (bbs o) (BB o)).
Proof.
  intro Ha. unfold challenge_d, challenge_e, spec_challenge,
    GetAbstractGroupParameters. fold P. fold len. cbv zeta.
  rewrite !Hash_challenge by (exact Ha || apply SecByteBlock_length).
  assert (L : forall m, N.of_nat (length (take len (Final (HASH D) m))) = len).
  { intro m. rewrite take_length_le; [lia|].
    rewrite sized. unfold Hash_assert in Ha. apply N.leb_le in Ha. lia. }
  now rewrite !L.
Qed.

(** The operands do not depend on what the block [tt] held before. *)
Lemma label_operands_explicit (U : allocator)
    (staticPrivateKey ephemeralPrivateKey
     staticOtherPublicKey ephemeralOtherPublicKey : bytes) :
  let n := StaticPrivateKeyLength D in
  let m := StaticPublicKeyLength D in
  let own := EncodeElement P true
               (ExponentiateBase P (Integer_Decode staticPrivateKey n)) in
  label_operands D U staticPrivateKey ephemeralPrivateKey
    staticOtherPublicKey ephemeralOtherPublicKey
  = match m_role D with
    | RoleClient =>
        {| XX := drop n ephemeralPrivateKey; xxs := m;
           YY := ephemeralOtherPublicKey; yys := m;
           AA := own; aas := m;
           BB := staticOtherPublicKey; bbs := m |}
    | RoleServer =>
        {| XX := ephemeralOtherPublicKey; xxs := m;
           YY := drop n ephemeralPrivateKey; yys := m;
           AA := staticOtherPublicKey; aas := m;
           BB := own; bbs := m |}
    end.
Proof.
  intros n m own. unfold label_operands, GetAbstractGroupParameters. fold P.
  cbv zeta. fold n.
  rewrite mem_write_fill by (rewrite SecByteBlock_length; apply encoded).
  reflexivity.
Qed.

(** Under the condition [Hash] asserts, no uninitialised byte reaches
    the result of [Agree]. *)
Lemma Agree_allocator_irrelevant (U1 U2 : allocator)
    (agreedValue staticPrivateKey ephemeralPrivateKey
     staticOtherPublicKey ephemeralOtherPublicKey : bytes) (validate : bool) :
  Hash_assert D len = true ->
  Agree D U1 agreedValue staticPrivateKey ephemeralPrivateKey
        staticOtherPublicKey ephemeralOtherPublicKey validate
  = Agree D U2 agreedValue staticPrivateKey ephemeralPrivateKey
          staticOtherPublicKey ephemeralOtherPublicKey validate.
Proof.
  intro Ha. rewrite !Agree_paths. fold P.
  rewrite (label_operands_explicit U1), (label_operands_explicit U2).
  cbv zeta.
  set (o := match m_role D with RoleServer => _ | RoleClient => _ end).
  destruct (challenges_covered U1 o Ha) as [-> ->].
  destruct (challenges_covered U2 o Ha) as [-> ->].
  destruct (DecodeElement P staticOtherPublicKey false) as [VV1|];
    [|reflexivity].
  destruct (ValidateElement P (static_level validate) VV1); [|reflexivity].
  destruct (DecodeElement P ephemeralOtherPublicKey false) as [VV2|];
    [|reflexivity].
  destruct (ValidateElement P 3%N VV2); [|reflexivity].
  destruct (GetSubgroupOrder P =? 0); [reflexivity|].
  now rewrite !Hash_sigma.
Qed.

(** Under that condition two calls with the same keys and flag agree on
    success or failure and, on success, on the agreed value, whatever the
    allocator hands out and whatever output buffers of the agreed length
    held before. *)
Lemma Agree_deterministic_when_covered (U1 U2 : allocator)
    (out1 out2 staticPrivateKey ephemeralPrivateKey
     staticOtherPublicKey ephemeralOtherPublicKey : bytes) (validate : bool) :
  Hash_assert D len = true ->
  length out1 = N.to_nat (AgreedValueLength D) ->
  length out2 = N.to_nat (AgreedValueLength D) ->
  match Agree D U1 out1 staticPrivateKey ephemeralPrivateKey
              staticOtherPublicKey ephemeralOtherPublicKey validate,
        Agree D U2 out2 staticPrivateKey ephemeralPrivateKey
              staticOtherPublicKey ephemeralOtherPublicKey validate with
  | Returned ok1 v1, Returned ok2 v2 => ok1 = ok2 /\ (ok1 = true -> v1 = v2)
  | Raised e1, Raised e2 => e1 = e2
  | _, _ => False
  end.
Proof.
  intros Ha L1 L2. rewrite !Agree_paths. fold P.
  rewrite (label_operands_explicit U1), (label_operands_explicit U2).
  cbv zeta.
  set (o := match m_role D with RoleServer => _ | RoleClient => _ end).
  destruct (challenges_covered U1 o Ha) as [-> ->].
  destruct (challenges_covered U2 o Ha) as [-> ->].
  destruct (DecodeElement P staticOtherPublicKey false) as [VV1|];
    [|split; [reflexivity|discriminate]].
  destruct (ValidateElement P (static_level validate) VV1);
    [|split; [reflexivity|discriminate]].
  destruct (DecodeElement P ephemeralOtherPublicKey false) as [VV2|];
    [|split; [reflexivity|discriminate]].
  destruct (ValidateElement P 3%N VV2); [|split; [reflexivity|discriminate]].
  destruct (GetSubgroupOrder P =? 0); [reflexivity|].
  split; [reflexivity|]. intros _. rewrite !Hash_sigma.
  unfold AgreedValueLength in *. rewrite N.min_id.
  rewrite !mem_write_fill; [reflexivity| |];
    rewrite take_length_le; rewrite ?sized; lia.
Qed.

End Covered.




(** ** Mutual agreement *)

Section MutualAgreement.

Context {Element : Type}.
Variable H : HashTransformation.
Variable P : DL_GroupParameters Element.

Hypothesis laws : group_laws P.
Hypothesis sized : hash_sized H.

Let Client := mk_FHMQV_Domain H P true.
Let Server := mk_FHMQV_Domain H P false.
Let q := GetSubgroupOrder P.
Let n := ByteCount q.
Local Abbreviation g := (ExponentiateBase P).

(** The static private keys, and the scalar parts of the ephemeral blobs. *)
Variables a_key b_key x_key y_key : bytes.
Hypothesis x_key_length : length x_key = N.to_nat n.
Hypothesis y_key_length : length y_key = N.to_nat n.

Let a := Integer_Decode a_key n.
Let b := Integer_Decode b_key n.
Let x := Integer_Decode x_key n.
Let y := Integer_Decode y_key n.
Let A := EncodeElement P true (g a).
Let B := EncodeElement P true (g b).
Let X := EncodeElement P true (g x).
Let Y := EncodeElement P true (g y).

Let d := spec_challenge Client X Y A B.
Let e := spec_challenge Client Y X A B.

(** Both formulas of the two roles give [g^((x + d*a) * (y + e*b))]. *)
Lemma sigma_client_closed :
  ExponentiateElement P (MultiplyElements P (g y) (ExponentiateElement P (g b) e))
    ((x + d * a) mod q)
  = g ((x + d * a) * (y + e * b)).
Proof.
  assert (Hq := subgroup_order_pos P laws). fold q in Hq.
  assert (0 <= a) by apply Integer_Decode_nonneg.
  assert (0 <= b) by apply Integer_Decode_nonneg.
  assert (0 <= x) by apply Integer_Decode_nonneg.
  assert (0 <= y) by apply Integer_Decode_nonneg.
  assert (0 <= d) by apply Integer_Decode_nonneg.
  assert (0 <= e) by apply Integer_Decode_nonneg.
  assert (0 <= (x + d * a) mod q < q) by (apply Z.mod_pos_bound; lia).
  rewrite (base_exp P laws), (base_mul P laws), (base_exp P laws)
    by nia.
  rewrite <- (base_order P laws) by nia. fold q.
  rewrite Z.mul_mod_idemp_r by lia.
  rewrite (base_order P laws) by nia. f_equal. ring.
Qed.

Lemma sigma_server_closed :
  ExponentiateElement P (MultiplyElements P (g x) (ExponentiateElement P (g a) d))
    ((y + e * b) mod q)
  = g ((x + d * a) * (y + e * b)).
Proof.
  assert (Hq := subgroup_order_pos P laws). fold q in Hq.
  assert (0 <= a) by apply Integer_Decode_nonneg.
  assert (0 <= b) by apply Integer_Decode_nonneg.
  assert (0 <= x) by apply Integer_Decode_nonneg.
  assert (0 <= y) by apply Integer_Decode_nonneg.
  assert (0 <= d) by apply Integer_Decode_nonneg.
  assert (0 <= e) by apply Integer_Decode_nonneg.
  assert (0 <= (y + e * b) mod q < q) by (apply Z.mod_pos_bound; lia).
  rewrite (base_exp P laws), (base_mul P laws), (base_exp P laws)
    by nia.
  rewrite <- (base_order P laws) by nia. fold q.
  rewrite Z.mul_mod_idemp_r by lia.
  rewrite (base_order P laws) by nia. f_equal. ring.
Qed.

Variables Uc Us : allocator.
Variables out_c out_s : bytes.
Variables validate_c validate_s : bool.

Hypothesis valid_B : ValidateElement P (static_level validate_c) (g b) = true.
Hypothesis valid_Y : ValidateElement P 3%N (g y) = true.
Hypothesis valid_A : ValidateElement P (static_level validate_s) (g a) = true.
Hypothesis valid_X : ValidateElement P 3%N (g x) = true.

(** The condition [Hash] asserts, for the challenge length of [q]. *)
Hypothesis covered : (challenge_len q <=? DIGESTSIZE H)%N = true.

(** With honest keys in a group obeying the laws, and challenges that fit
    the digest, the Client and the Server both succeed and store the
    digest of the same shared element [g^((x + d*a) * (y + e*b))]. *)
Lemma Agree_mutual :
  let K := spec_agreed_value Client (g ((x + d * a) * (y + e * b))) X Y A B in
  Agree Client Uc out_c a_key (x_key ++ X) B Y validate_c
    = Returned true (mem_write out_c 0 K)
  /\ Agree Server Us out_s b_key (y_key ++ Y) A X validate_s
    = Returned true (mem_write out_s 0 K).
Proof.
  intro K. unfold K, Client, Server.
  assert (Hq := subgroup_order_pos P laws). fold q in Hq.
  assert (Hq0 : (q =? 0) = false) by (apply Z.eqb_neq; lia).
  assert (Hsz : forall E, length (EncodeElement P true E)
                          = N.to_nat (GetEncodedElementSize P true))
    by apply (encode_size P laws).
  assert (Hpos : forall k enc, 0 <= Integer_Decode enc k)
    by (intros; apply Integer_Decode_nonneg).
  split.
  - rewrite Agree_paths. cbn [m_groupParameters mk_FHMQV_Domain].
    unfold B, Y. rewrite !(decode_encode P laws) by apply Hpos.
    fold b y. rewrite valid_B, valid_Y. fold q. rewrite Hq0. cbv zeta.
    rewrite Hash_sigma by exact Hsz.
    rewrite label_operands_explicit by exact Hsz.
    rewrite (proj1 (challenges_covered (mk_FHMQV_Domain H P true) sized Uc _ covered)).
    rewrite (proj2 (challenges_covered (mk_FHMQV_Domain H P true) sized Uc _ covered)).
    cbn [m_role mk_FHMQV_Domain XX YY AA BB xxs yys aas bbs].
    change (StaticPrivateKeyLength (mk_FHMQV_Domain H P true)) with n.
    change (StaticPublicKeyLength (mk_FHMQV_Domain H P true))
      with (GetEncodedElementSize P true).
    change (m_groupParameters (mk_FHMQV_Domain H P true)) with P.
    rewrite (drop_app_exact n x_key X x_key_length).
    rewrite !(take_all (GetEncodedElementSize P true))
      by (unfold X; rewrite Hsz; lia).
    fold a. fold A B X Y.
    change (spec_challenge (mk_FHMQV_Domain H P true) X Y A B) with d.
    change (spec_challenge (mk_FHMQV_Domain H P true) Y X A B) with e.
    unfold spec_sigma. cbn [m_role mk_FHMQV_Domain]. cbv zeta.
    change (StaticPrivateKeyLength (mk_FHMQV_Domain H P true)) with n.
    change (m_groupParameters (mk_FHMQV_Domain H P true)) with P.
    rewrite (take_app_exact n x_key X x_key_length).
    fold a x q. rewrite sigma_client_closed.
    unfold spec_agreed_value, AgreedValueLength.
    cbn [HASH m_groupParameters mk_FHMQV_Domain].
    now rewrite N.min_id.
  - rewrite Agree_paths. cbn [m_groupParameters mk_FHMQV_Domain].
    unfold A, X. rewrite !(decode_encode P laws) by apply Hpos.
    fold a x. rewrite valid_A, valid_X. fold q. rewrite Hq0. cbv zeta.
    rewrite Hash_sigma by exact Hsz.
    rewrite label_operands_explicit by exact Hsz.
    rewrite (proj1 (challenges_covered (mk_FHMQV_Domain H P false) sized Us _ covered)).
    rewrite (proj2 (challenges_covered (mk_FHMQV_Domain H P false) sized Us _ covered)).
    cbn [m_role mk_FHMQV_Domain XX YY AA BB xxs yys aas bbs].
    change (StaticPrivateKeyLength (mk_FHMQV_Domain H P false)) with n.
    change (StaticPublicKeyLength (mk_FHMQV_Domain H P false))
      with (GetEncodedElementSize P true).
    change (m_groupParameters (mk_FHMQV_Domain H P false)) with P.
    rewrite (drop_app_exact n y_key Y y_key_length).
    rewrite !(take_all (GetEncodedElementSize P true))
      by (unfold Y; rewrite Hsz; lia).
    fold b. fold A B X Y.
    change (spec_challenge (mk_FHMQV_Domain H P false) X Y A B) with d.
    change (spec_challenge (mk_FHMQV_Domain H P false) Y X A B) with e.
    unfold spec_sigma. cbn [m_role mk_FHMQV_Domain]. cbv zeta.
    change (StaticPrivateKeyLength (mk_FHMQV_Domain H P false)) with n.
    change (m_groupParameters (mk_FHMQV_Domain H P false)) with P.
    rewrite (take_app_exact n y_key Y y_key_length).
    fold b y q. rewrite sigma_server_closed.
    unfold spec_agreed_value, AgreedValueLength.
    cbn [HASH m_groupParameters mk_FHMQV_Domain].
    now rewrite N.min_id.
Qed.

End MutualAgreement.

(** ** Keys made by the generators *)

Section GeneratedKeys.

Context {Element : Type}.
Variable H : HashTransformation.
Variable P : DL_GroupParameters Element.
Variable R : RandomNumberGenerator.

Hypothesis laws : group_laws P.
Hypothesis sized : hash_sized H.

(** A draw lies between its bounds, exponents stay below the subgroup
    order, and the base raised to an exponent in range is a valid
    element at every level. *)
Hypothesis draws_in_range : forall s lo hi,
  lo <= hi -> lo <= fst (GenerateInteger R s lo hi) <= hi.
Hypothesis max_exponent : 1 <= GetMaxExponent P < GetSubgroupOrder P.
Hypothesis valid_keys : forall level k,
  1 <= k <= GetMaxExponent P ->
  ValidateElement P level (ExponentiateBase P k) = true.

Let n := ByteCount (GetSubgroupOrder P).
Let m := GetEncodedElementSize P true.
Let Dom (clientRole : bool) := mk_FHMQV_Domain H P clientRole.

Lemma exponent_round_trip (k : Z) :
  1 <= k <= GetMaxExponent P ->
  Integer_Decode (Integer_Encode k n) n = k.
Proof.
  intro Hk. apply Integer_Decode_Encode_small.
  pose proof (ByteCount_fits (GetSubgroupOrder P) ltac:(lia)). fold n in H0.
  lia.
Qed.

Lemma GenerateStaticPrivateKey_range (role : bool) (rng : rng_state R)
    (buf : bytes) :
  length buf = N.to_nat n ->
  let key := snd (GenerateStaticPrivateKey (Dom role) R rng buf) in
  1 <= Integer_Decode key n <= GetMaxExponent P.
Proof.
  intros Hbuf key. subst key. unfold Dom.
  unfold GenerateStaticPrivateKey, GetAbstractGroupParameters.
  cbn [m_groupParameters mk_FHMQV_Domain].
  pose proof (draws_in_range rng 1 (GetMaxExponent P) ltac:(lia)) as Hd.
  destruct (GenerateInteger R rng 1 (GetMaxExponent P)) as [k rng'].
  cbn [fst snd] in *.
  change (StaticPrivateKeyLength (mk_FHMQV_Domain H P role)) with n.
  rewrite mem_write_fill by (rewrite Integer_Encode_length; lia).
  now rewrite exponent_round_trip.
Qed.

Lemma GenerateStaticPublicKey_encodes (role : bool) (rng : rng_state R)
    (privateKey buf : bytes) :
  length buf = N.to_nat m ->
  snd (GenerateStaticPublicKey (Dom role) R rng privateKey buf)
  = EncodeElement P true (ExponentiateBase P (Integer_Decode privateKey n)).
Proof.
  intro Hbuf. unfold Dom, GenerateStaticPublicKey. cbn [snd].
  apply mem_write_fill. rewrite Hbuf. apply (encode_size P laws).
Qed.

Lemma GenerateEphemeralPrivateKey_honest (role : bool) (rng : rng_state R)
    (buf : bytes) :
  length buf = N.to_nat (n + m) ->
  exists scalar,
    length scalar = N.to_nat n
    /\ 1 <= Integer_Decode scalar n <= GetMaxExponent P
    /\ snd (GenerateEphemeralPrivateKey (Dom role) R rng buf)
       = scalar ++ EncodeElement P true
                     (ExponentiateBase P (Integer_Decode scalar n)).
Proof.
  intro Hbuf.
  destruct (GenerateEphemeralPrivateKey_layout (Dom role) R
              (encode_size P laws) rng buf Hbuf) as (k & rng' & Hdraw & Hblob).
  pose proof (draws_in_range rng 1 (GetMaxExponent P) ltac:(lia)) as Hd.
  unfold Dom in *. cbn [m_groupParameters mk_FHMQV_Domain] in Hdraw, Hblob.
  rewrite Hdraw in Hd. cbn [fst] in Hd.
  change (StaticPrivateKeyLength (mk_FHMQV_Domain H P role)) with n in Hblob.
  exists (Integer_Encode k n).
  rewrite Hblob, exponent_round_trip by exact Hd.
  split; [apply Integer_Encode_length|]. split; [exact Hd|reflexivity].
Qed.

Lemma GenerateEphemeralPublicKey_cached (role : bool) (rng : rng_state R)
    (scalar element buf : bytes) :
  length scalar = N.to_nat n -> length element = N.to_nat m ->
  length buf = N.to_nat m ->
  snd (GenerateEphemeralPublicKey (Dom role) R rng (scalar ++ element) buf)
  = element.
Proof.
  intros Hs He Hb. unfold Dom, GenerateEphemeralPublicKey, memcpy. cbn [snd].
  change (StaticPrivateKeyLength (mk_FHMQV_Domain H P role)) with n.
  change (EphemeralPublicKeyLength (mk_FHMQV_Domain H P role)) with m.
  rewrite drop_app_exact by exact Hs. rewrite take_all by lia.
  apply mem_write_fill. lia.
Qed.

Variables Uc Us : allocator.
Variables out_c out_s : bytes.
Variables validate_c validate_s : bool.
Variables seed_a seed_b seed_x seed_y : rng_state R.
Variables rng_A rng_B rng_X rng_Y : rng_state R.
Variables buf_a buf_b buf_x buf_y buf_A buf_B buf_X buf_Y : bytes.

Hypothesis buf_a_length : length buf_a = N.to_nat n.
Hypothesis buf_b_length : length buf_b = N.to_nat n.
Hypothesis buf_x_length : length buf_x = N.to_nat (n + m).
Hypothesis buf_y_length : length buf_y = N.to_nat (n + m).
Hypothesis buf_A_length : length buf_A = N.to_nat m.
Hypothesis buf_B_length : length buf_B = N.to_nat m.
Hypothesis buf_X_length : length buf_X = N.to_nat m.
Hypothesis buf_Y_length : length buf_Y = N.to_nat m.

Hypothesis covered :
  (challenge_len (GetSubgroupOrder P) <=? DIGESTSIZE H)%N = true.

(** The Client makes [a], [A], [x], [X] and the Server [b], [B], [y], [Y]
    with the four generators; each hands its public keys to the other.
    When the challenges fit the digest both calls of [Agree] succeed and
    store the same agreed value. *)
Lemma Agree_mutual_generated :
  let a := snd (GenerateStaticPrivateKey (Dom true) R seed_a buf_a) in
  let A := snd (GenerateStaticPublicKey (Dom true) R rng_A a buf_A) in
  let x := snd (GenerateEphemeralPrivateKey (Dom true) R seed_x buf_x) in
  let X := snd (GenerateEphemeralPublicKey (Dom true) R rng_X x buf_X) in
  let b := snd (GenerateStaticPrivateKey (Dom false) R seed_b buf_b) in
  let B := snd (GenerateStaticPublicKey (Dom false) R rng_B b buf_B) in
  let y := snd (GenerateEphemeralPrivateKey (Dom false) R seed_y buf_y) in
  let Y := snd (GenerateEphemeralPublicKey (Dom false) R rng_Y y buf_Y) in
  exists K,
    Agree (Dom true) Uc out_c a x B Y validate_c
      = Returned true (mem_write out_c 0 K)
    /\ Agree (Dom false) Us out_s b y A X validate_s
      = Returned true (mem_write out_s 0 K).
Proof.
  intros a A x X b B y Y.
  pose proof (GenerateStaticPrivateKey_range true seed_a buf_a buf_a_length)
    as Ra. fold a in Ra.
  pose proof (GenerateStaticPrivateKey_range false seed_b buf_b buf_b_length)
    as Rb. fold b in Rb.
  destruct (GenerateEphemeralPrivateKey_honest true seed_x buf_x buf_x_length)
    as (xs & Lx & Rx & Ex). fold x in Ex.
  destruct (GenerateEphemeralPrivateKey_honest false seed_y buf_y buf_y_length)
    as (ys & Ly & Ry & Ey). fold y in Ey.
  assert (EA : A = EncodeElement P true
                     (ExponentiateBase P (Integer_Decode a n)))
    by (apply GenerateStaticPublicKey_encodes; exact buf_A_length).
  assert (EB : B = EncodeElement P true
                     (ExponentiateBase P (Integer_Decode b n)))
    by (apply GenerateStaticPublicKey_encodes; exact buf_B_length).
  assert (EX : X = EncodeElement P true
                     (ExponentiateBase P (Integer_Decode xs n))).
  { subst X. rewrite Ex. apply GenerateEphemeralPublicKey_cached;
      [exact Lx|apply (encode_size P laws)|exact buf_X_length]. }
  assert (EY : Y = EncodeElement P true
                     (ExponentiateBase P (Integer_Decode ys n))).
  { subst Y. rewrite Ey. apply GenerateEphemeralPublicKey_cached;
      [exact Ly|apply (encode_size P laws)|exact buf_Y_length]. }
  rewrite EA, EB, EX, EY, Ex, Ey.
  eexists.
  exact (Agree_mutual H P laws sized a b xs ys Lx Ly Uc Us out_c out_s
           validate_c validate_s
           (valid_keys _ _ Rb) (valid_keys _ _ Ry)
           (valid_keys _ _ Ra) (valid_keys _ _ Rx) covered).
Qed.

End GeneratedKeys.

(** ** The two groups of the examples *)

Lemma small_group_laws : group_laws (GFP.params 23 11 4).
Proof. apply GFP_group_laws; vm_compute; reflexivity. Qed.

Lemma large_group_laws : group_laws (GFP.params Toy.p66 Toy.q65 4).
Proof. apply GFP_group_laws; vm_compute; reflexivity. Qed.

(** In the small group the challenges fit the digest, and a session of
    honest keys ends with the same agreed value on both sides, whatever
    the two allocators hand out. *)
Lemma Agree_mutual_small :
  Hash_assert (Toy.small true) (challenge_len 11) = true
  /\ exists K,
       Toy.client_run Toy.small Toy.U_zero true = Returned true K
       /\ Toy.server_run Toy.small Toy.U_ff false = Returned true K.
Proof.
  split; [reflexivity|].
  destruct (Agree_mutual Adler32.hash (GFP.params 23 11 4)
              small_group_laws Adler32_sized
              [x03] [x07] [x08] [x02] eq_refl eq_refl
              Toy.U_zero Toy.U_ff (Toy.blank 4) (Toy.blank 4) true false
              eq_refl eq_refl eq_refl eq_refl eq_refl) as [Hc Hs].
  eexists. split; [exact Hc|exact Hs].
Qed.

Lemma LCG_in_range (s lo hi : Z) :
  lo <= hi -> lo <= fst (GenerateInteger LCG s lo hi) <= hi.
Proof.
  intro Hle. cbn [GenerateInteger LCG fst].
  pose proof (Z.mod_pos_bound
                ((s * 6364136223846793005 + 1442695040888963407) mod 2 ^ 64)
                (hi - lo + 1) ltac:(lia)).
  lia.
Qed.

Lemma small_group_valid_keys (level : N) (k : Z) :
  1 <= k <= GetMaxExponent (GFP.params 23 11 4) ->
  ValidateElement (GFP.params 23 11 4) level
    (ExponentiateBase (GFP.params 23 11 4) k) = true.
Proof.
  cbn [GetMaxExponent ValidateElement ExponentiateBase GFP.params].
  intro Hk. unfold GFP.Validate.
  assert (Hcases : k = 1 \/ k = 2 \/ k = 3 \/ k = 4 \/ k = 5 \/ k = 6
                   \/ k = 7 \/ k = 8 \/ k = 9 \/ k = 10) by lia.
  destruct (2 <=? level)%N;
    repeat (destruct Hcases as [->|Hcases]; [reflexivity|]);
    subst k; reflexivity.
Qed.

(** The same, from the hypotheses on the group, the hash and the
    generator rather than by running the session. *)
Lemma Agree_mutual_generated_small :
  exists K,
    Toy.client_run Toy.small Toy.U_zero true
      = Returned true (mem_write (Toy.blank 4) 0 K)
    /\ Toy.server_run Toy.small Toy.U_ff false
      = Returned true (mem_write (Toy.blank 4) 0 K).
Proof.
  exact (Agree_mutual_generated Adler32.hash (GFP.params 23 11 4) LCG
           small_group_laws Adler32_sized LCG_in_range
           ltac:(vm_compute; split; [discriminate|reflexivity])
           small_group_valid_keys
           Toy.U_zero Toy.U_ff (Toy.blank 4) (Toy.blank 4) true false
           1 3 2 4 0 0 0 0
           (Toy.blank 1) (Toy.blank 1) (Toy.blank 2) (Toy.blank 2)
           (Toy.blank 1) (Toy.blank 1) (Toy.blank 1) (Toy.blank 1)
           eq_refl eq_refl eq_refl eq_refl eq_refl eq_refl eq_refl eq_refl
           eq_refl).
Qed.

(** ** Runs of the examples *)

Lemma ephemeral_public_is_trailing_slice_witness :
  Toy.ephemeral_public (Toy.large true) (Toy.x Toy.large)
  = trailing 9 (Toy.x Toy.large).
Proof.
  assert (Henc : forall E : Z,
            length (EncodeElement (m_groupParameters (Toy.large true)) true E)
            = N.to_nat (StaticPublicKeyLength (Toy.large true)))
    by (intro E; apply Integer_Encode_length).
  assert (Hfit : (StaticPrivateKeyLength (Toy.large true)
                  + StaticPublicKeyLength (Toy.large true) < 2 ^ 32)%N)
    by (vm_compute; reflexivity).
  assert (Hbuf : length (Toy.blank (EphemeralPrivateKeyLength (Toy.large true)))
                 = N.to_nat (EphemeralPrivateKeyLength (Toy.large true)))
    by (vm_compute; reflexivity).
  destruct (ephemeral_public_is_trailing_slice (Toy.large true) LCG 2 0
              (Toy.blank (EphemeralPrivateKeyLength (Toy.large true)))
              (Toy.blank (EphemeralPublicKeyLength (Toy.large true)))
              Henc Hfit Hbuf) as (_ & _ & Hout).
  apply Hout. vm_compute. reflexivity.
Defined.

Lemma Agree_validation_levels_witness :
  Agree (Toy.small true) Toy.U_zero (Toy.blank 4) (Toy.a Toy.small)
        (Toy.x Toy.small) Toy.outside_subgroup (Toy.Y Toy.small) true
    = Returned false (Toy.blank 4)
  /\ Agree (Toy.small true) Toy.U_zero (Toy.blank 4) (Toy.a Toy.small)
           (Toy.x Toy.small) (Toy.B Toy.small) Toy.outside_subgroup false
    = Returned false (Toy.blank 4).
Proof.
  split.
  - destruct (Agree_validation_levels (Toy.small true) Toy.U_zero (Toy.blank 4)
                (Toy.a Toy.small) (Toy.x Toy.small) Toy.outside_subgroup
                (Toy.Y Toy.small) true) as (_ & _ & Hst & _).
    apply (Hst 22); vm_compute; reflexivity.
  - destruct (Agree_validation_levels (Toy.small true) Toy.U_zero (Toy.blank 4)
                (Toy.a Toy.small) (Toy.x Toy.small) (Toy.B Toy.small)
                Toy.outside_subgroup false) as (_ & _ & _ & Hep & _).
    apply (Hep 22); vm_compute; reflexivity.
Defined.


(** C3. In the group of 65-bit order the challenge length is five bytes
    and the digest has four: [Hash] stores four bytes and [Agree] decodes
    five, so [d] and [e] are not the truncated digests read as
    big-endian integers; their last byte is whatever the block held. *)
Theorem challenges_beyond_digest :
  let o := label_operands (Toy.large true) Toy.U_zero (Toy.a Toy.large)
             (Toy.x Toy.large) (Toy.B Toy.large) (Toy.Y Toy.large) in
  let X := Toy.X Toy.large in let Y := Toy.Y Toy.large in
  let A := Toy.A Toy.large in let B := Toy.B Toy.large in
  challenge_len Toy.q65 = 5%N
  /\ DIGESTSIZE (HASH (Toy.large true)) = 4%N
  /\ Hash_assert (Toy.large true) (challenge_len Toy.q65) = false
  /\ (take (xxs o) (XX o), take (yys o) (YY o),
      take (aas o) (AA o), take (bbs o) (BB o)) = (X, Y, A, B)
  /\ spec_challenge (Toy.large true) X Y A B = 319229786
  /\ challenge_d (Toy.large true) Toy.U_zero o = 319229786 * 256
  /\ challenge_d (Toy.large true) Toy.U_ff o = 319229786 * 256 + 255
  /\ spec_challenge (Toy.large true) Y X A B = 356388698
  /\ challenge_e (Toy.large true) Toy.U_zero o = 356388698 * 256
  /\ challenge_e (Toy.large true) Toy.U_ff o = 356388698 * 256 + 255.
Proof. vm_compute. repeat split. Qed.

(** C1. In the group of 65-bit order, which obeys the group laws but
    fails the assertion of [Hash], a Client and a Server holding honest
    keys of one session both succeed and store different agreed values
    when their allocators hand out different memory. *)
Theorem Agree_disagrees_beyond_digest :
  group_laws (GFP.params Toy.p66 Toy.q65 4)
  /\ Hash_assert (Toy.large true) (challenge_len Toy.q65) = false
  /\ Toy.client_run Toy.large Toy.U_zero true
     = Returned true [xd2; x43; x14; x19]
  /\ Toy.server_run Toy.large Toy.U_ff true
     = Returned true [xf2; xf2; x14; xe6]
  /\ Toy.client_run Toy.large Toy.U_zero true
     <> Toy.server_run Toy.large Toy.U_ff true.
Proof.
  split; [exact large_group_laws|].
  split; [vm_compute; reflexivity|].
  split; [vm_compute; reflexivity|].
  split; [vm_compute; reflexivity|].
  intro E. vm_compute in E. discriminate E.
Qed.

(** C9. In the group of 65-bit order, where the assertion of [Hash]
    fails, two calls of the Client with the same five inputs return
    different agreed values when the blocks for the challenges hold
    different bytes beforehand. *)
Theorem Agree_varies_with_uninitialised_block :
  Hash_assert (Toy.large true) (challenge_len Toy.q65) = false
  /\ Toy.client_run Toy.large Toy.U_zero true
     = Returned true [xd2; x43; x14; x19]
  /\ Toy.client_run Toy.large Toy.U_ff true
     = Returned true [xf2; xf2; x14; xe6]
  /\ Toy.client_run Toy.large Toy.U_zero true
     <> Toy.client_run Toy.large Toy.U_ff true.
Proof.
  split; [vm_compute; reflexivity|].
  split; [vm_compute; reflexivity|].
  split; [vm_compute; reflexivity|].
  intro E. vm_compute in E. discriminate E.
Qed.

(** * Further properties of the code *)

(** ** The size of the challenges *)

Lemma decode_fold_bound (l : bytes) (acc j : Z) :
  0 <= j -> 0 <= acc < 256 ^ j ->
  fold_left (fun acc c => acc * 256 + Z_of_byte c) l acc
  < 256 ^ (j + Z.of_nat (length l)).
Proof.
  revert acc j. induction l as [|c l IH]; intros acc j Hj Hacc.
  - cbn [fold_left length]. rewrite Z.add_0_r. lia.
  - cbn [fold_left length].
    replace (j + Z.of_nat (S (length l))) with ((j + 1) + Z.of_nat (length l))
      by lia.
    apply IH; [lia|].
    pose proof (Z_of_byte_range c). rewrite Z.pow_add_r, Z.pow_1_r by lia. lia.
Qed.

(** An integer decoded from [k] bytes is below [256^k]. *)
Lemma Integer_Decode_bound (enc : bytes) (k : N) :
  0 <= Integer_Decode enc k < 256 ^ Z.of_N k.
Proof.
  split; [apply Integer_Decode_nonneg|].
  unfold Integer_Decode.
  pose proof (decode_fold_bound (take k enc) 0 0 ltac:(lia) ltac:(lia)) as B.
  eapply Z.lt_le_trans; [exact B|].
  apply Z.pow_le_mono_r; [lia|].
  unfold take. rewrite length_firstn. lia.
Qed.

(** A positive integer is at least the power of two of its top bit. *)
Lemma BitCount_lower (x : Z) : 0 < x -> 2 ^ (Z.of_N (BitCount x) - 1) <= x.
Proof.
  intro Hx. unfold BitCount.
  destruct x as [|p|p]; try lia. cbn [Z.abs_N Z.abs N.size Z.to_N].
  change (Z.of_N (N.pos (Pos.size p))) with (Z.pos (Pos.size p)).
  induction p as [p IH|p IH|]; cbn [Pos.size].
  - rewrite Pos2Z.inj_succ, (Pos2Z.inj_xI p).
    replace (Z.succ (Z.pos (Pos.size p)) - 1) with (Z.pos (Pos.size p) - 1 + 1)
      by lia.
    rewrite Z.pow_add_r, Z.pow_1_r by lia. specialize (IH ltac:(lia)). lia.
  - rewrite Pos2Z.inj_succ, (Pos2Z.inj_xO p).
    replace (Z.succ (Z.pos (Pos.size p)) - 1) with (Z.pos (Pos.size p) - 1 + 1)
      by lia.
    rewrite Z.pow_add_r, Z.pow_1_r by lia. specialize (IH ltac:(lia)). lia.
  - reflexivity.
Qed.

(** The arithmetic of the challenge length. *)
Lemma challenge_len_between (q : Z) :
  (BitCount q + 1 < 2 ^ 32)%N ->
  (BitCount q <= 16 * challenge_len q <= BitCount q + 15)%N
  /\ (challenge_len q <= ByteCount q)%N
  /\ (q <> 0 -> (1 <= challenge_len q)%N).
Proof.
  intro Hfit. unfold challenge_len, ByteCount. rewrite u32_small by exact Hfit.
  assert (Hn : q <> 0 -> (1 <= BitCount q)%N).
  { intro Hq. unfold BitCount. destruct q as [|p|p]; try lia;
      cbn [Z.abs_N Z.abs Z.to_N N.size]; lia. }
  set (n := BitCount q) in *.
  pose proof (N.Div0.div_mod (n + 1) 2) as E1.
  pose proof (N.mod_upper_bound (n + 1) 2 ltac:(lia)) as B1.
  set (h := ((n + 1) / 2)%N) in *.
  pose proof (N.Div0.div_mod (h + 7) 8) as E2.
  pose proof (N.mod_upper_bound (h + 7) 8 ltac:(lia)) as B2.
  pose proof (N.Div0.div_mod (n + 7) 8) as E3.
  pose proof (N.mod_upper_bound (n + 7) 8 ltac:(lia)) as B3.
  clearbody h n. clear Hfit.
  revert E2 B2 E3 B3 E1 B1.
  generalize ((h + 7) / 8)%N ((h + 7) mod 8)%N ((n + 7) / 8)%N
    ((n + 7) mod 8)%N ((n + 1) mod 2)%N.
  intros t r2 t3 r3 r1 E2 B2 E3 B3 E1 B1.
  split; [lia|]. split; [lia|]. intro Hq. specialize (Hn Hq). lia.
Qed.

(** X1. For a subgroup order whose bit length plus one fits an
    [unsigned int], sixteen times the challenge length lies between the
    bit length of [q] and that plus fifteen; the challenge is never longer
    than a static private key, and it has at least one byte unless [q]
    is zero. *)
Theorem challenge_len_bounds (q : Z) :
  (BitCount q + 1 < 2 ^ 32)%N ->
  (BitCount q <= 16 * challenge_len q <= BitCount q + 15)%N
  /\ (challenge_len q <= ByteCount q)%N
  /\ (q <> 0 -> (1 <= challenge_len q)%N).
Proof. exact (challenge_len_between q). Qed.

Lemma challenge_len_bounds_witness :
  (BitCount Toy.q65 <= 16 * challenge_len Toy.q65 <= BitCount Toy.q65 + 15)%N
  /\ (challenge_len Toy.q65 <= ByteCount Toy.q65)%N
  /\ (1 <= challenge_len Toy.q65)%N.
Proof.
  destruct (challenge_len_bounds Toy.q65) as (Hb & Hle & Hpos).
  - vm_compute. reflexivity.
  - split; [exact Hb|]. split; [exact Hle|]. apply Hpos. discriminate.
Defined.

(** X2. Whatever the blocks held and whatever the digest covers, the
    challenges [d] and [e] that [Agree] decodes are non-negative and below
    [256^len]; for a subgroup order of at least 17 bits they are below
    [q]. *)
Theorem challenges_below_order {Element} (D : FHMQV_Domain Element)
    (U : allocator) (o : operands) :
  let q := GetSubgroupOrder (m_groupParameters D) in
  let len := challenge_len q in
  (0 <= challenge_d D U o < 256 ^ Z.of_N len
   /\ 0 <= challenge_e D U o < 256 ^ Z.of_N len)
  /\ (0 < q -> (17 <= BitCount q)%N -> (BitCount q + 1 < 2 ^ 32)%N ->
      0 <= challenge_d D U o < q /\ 0 <= challenge_e D U o < q).
Proof.
  intros q len.
  assert (Hd : 0 <= challenge_d D U o < 256 ^ Z.of_N len)
    by apply Integer_Decode_bound.
  assert (He : 0 <= challenge_e D U o < 256 ^ Z.of_N len)
    by apply Integer_Decode_bound.
  split; [split; assumption|].
  intros Hq Hbits Hfit.
  destruct (challenge_len_between q Hfit) as ((_ & Hup) & _ & _). fold len in Hup.
  assert (Hq' : 256 ^ Z.of_N len <= q).
  { eapply Z.le_trans; [|apply BitCount_lower; exact Hq].
    change 256 with (2 ^ 8). rewrite <- Z.pow_mul_r by lia.
    apply Z.pow_le_mono_r; lia. }
  lia.
Qed.

Lemma challenges_below_order_witness :
  let o := label_operands (Toy.large true) Toy.U_ff (Toy.a Toy.large)
             (Toy.x Toy.large) (Toy.B Toy.large) (Toy.Y Toy.large) in
  0 <= challenge_d (Toy.large true) Toy.U_ff o < Toy.q65
  /\ 0 <= challenge_e (Toy.large true) Toy.U_ff o < Toy.q65.
Proof.
  intro o.
  destruct (challenges_below_order (Toy.large true) Toy.U_ff o) as [_ Hq].
  apply Hq; vm_compute; (reflexivity || discriminate).
Defined.

(** ** Key generation *)

Lemma mem_write_0_parts (buf data : bytes) :
  (length data <= length buf)%nat ->
  length (mem_write buf 0 data) = length buf
  /\ firstn (length data) (mem_write buf 0 data) = data
  /\ skipn (length data) (mem_write buf 0 data) = skipn (length data) buf.
Proof.
  intro H. rewrite mem_write_0. split; [|split].
  - rewrite length_app, length_skipn. lia.
  - rewrite firstn_app, Nat.sub_diag, firstn_all. cbn [firstn]. apply app_nil_r.
  - rewrite skipn_app, Nat.sub_diag, skipn_all. reflexivity.
Qed.

Lemma Integer_Decode_prefix (lead rest : bytes) (k : N) :
  length lead = N.to_nat k ->
  Integer_Decode (lead ++ rest) k = Integer_Decode lead k.
Proof.
  intro H. unfold Integer_Decode.
  rewrite take_app_exact by exact H. rewrite take_all by lia. reflexivity.
Qed.

(** X3. When the generator draws within its bounds and the maximal
    exponent fits the key width, [GenerateStaticPrivateKey] stores a key
    that decodes back to the exponent drawn, which lies in
    [[1, GetMaxExponent()]]; it writes [StaticPrivateKeyLength()] bytes,
    keeps the bytes of the buffer after them, and leaves the generator in
    the state after one draw. *)
Theorem GenerateStaticPrivateKey_round_trip {Element} (D : FHMQV_Domain Element)
    (R : RandomNumberGenerator) (rng : rng_state R) (privateKey : bytes) :
  let P := m_groupParameters D in
  let n := StaticPrivateKeyLength D in
  let draw := GenerateInteger R rng 1 (GetMaxExponent P) in
  let out := GenerateStaticPrivateKey D R rng privateKey in
  (forall s lo hi, lo <= hi -> lo <= fst (GenerateInteger R s lo hi) <= hi) ->
  1 <= GetMaxExponent P < 256 ^ Z.of_N n ->
  (N.to_nat n <= length privateKey)%nat ->
  Integer_Decode (snd out) n = fst draw
  /\ 1 <= Integer_Decode (snd out) n <= GetMaxExponent P
  /\ length (snd out) = length privateKey
  /\ drop n (snd out) = drop n privateKey
  /\ fst out = snd draw.
Proof.
  intros P n draw out Hdraws Hmax Hbuf.
  pose proof (Hdraws rng 1 (GetMaxExponent P) ltac:(lia)) as Hk.
  subst out draw. unfold GenerateStaticPrivateKey, GetAbstractGroupParameters.
  fold P. fold n.
  destruct (GenerateInteger R rng 1 (GetMaxExponent P)) as [k rng'].
  cbn [fst snd] in *.
  pose proof (Integer_Encode_length k n) as Hlen.
  destruct (mem_write_0_parts privateKey (Integer_Encode k n) ltac:(lia))
    as (L & F & S).
  rewrite Hlen in F, S.
  assert (E : Integer_Decode (mem_write privateKey 0 (Integer_Encode k n)) n = k).
  { unfold Integer_Decode, take. rewrite F.
    pose proof (Integer_Decode_Encode_small k n ltac:(lia)) as RT.
    unfold Integer_Decode in RT.
    rewrite take_all in RT by (rewrite Hlen; lia). exact RT. }
  rewrite E. repeat split; try lia; assumption.
Qed.

Lemma GenerateStaticPrivateKey_round_trip_witness :
  Integer_Decode (Toy.a Toy.large) 9 = 7806831264735756413
  /\ 1 <= Integer_Decode (Toy.a Toy.large) 9 <= Toy.q65 - 1.
Proof.
  destruct (GenerateStaticPrivateKey_round_trip (Toy.large true) LCG 1
              (Toy.blank 9) LCG_in_range) as (Hd & Hr & _).
  - vm_compute. split; [discriminate|reflexivity].
  - vm_compute. lia.
  - exact (conj (eq_trans Hd eq_refl) Hr).
Defined.

(** X4. [GenerateStaticPublicKey] reads only the leading
    [StaticPrivateKeyLength()] bytes of the private key; it stores the
    encoding of the base raised to the exponent they decode to at the
    start of [publicKey] and keeps the bytes after it. *)
Theorem GenerateStaticPublicKey_reads_prefix {Element} (D : FHMQV_Domain Element)
    (R : RandomNumberGenerator) (rng : rng_state R)
    (privateKey rest publicKey : bytes) :
  let P := m_groupParameters D in
  let n := StaticPrivateKeyLength D in
  let m := StaticPublicKeyLength D in
  let out := snd (GenerateStaticPublicKey D R rng (privateKey ++ rest) publicKey) in
  (forall E, length (EncodeElement P true E) = N.to_nat m) ->
  length privateKey = N.to_nat n ->
  (N.to_nat m <= length publicKey)%nat ->
  out = snd (GenerateStaticPublicKey D R rng privateKey publicKey)
  /\ take m out
     = EncodeElement P true (ExponentiateBase P (Integer_Decode privateKey n))
  /\ drop m out = drop m publicKey
  /\ length out = length publicKey.
Proof.
  intros P n m out Henc Hpriv Hpub. subst out.
  unfold GenerateStaticPublicKey, GetAbstractGroupParameters. cbn [snd].
  fold P. fold n. rewrite Integer_Decode_prefix by exact Hpriv.
  set (enc := EncodeElement P true _).
  assert (Hlen : length enc = N.to_nat m) by apply Henc.
  destruct (mem_write_0_parts publicKey enc ltac:(lia)) as (L & F & S).
  rewrite Hlen in F, S. unfold take, drop. auto.
Qed.

Lemma GenerateStaticPublicKey_reads_prefix_witness :
  Toy.static_public (Toy.large true) (Toy.x Toy.large) = Toy.X Toy.large.
Proof.
  assert (Henc : forall E : Z,
            length (EncodeElement (m_groupParameters (Toy.large true)) true E)
            = N.to_nat (StaticPublicKeyLength (Toy.large true)))
    by (intro E; apply Integer_Encode_length).
  destruct (GenerateStaticPublicKey_reads_prefix (Toy.large true) LCG 0
              (firstn 9 (Toy.x Toy.large)) (skipn 9 (Toy.x Toy.large))
              (Toy.blank 9) Henc eq_refl) as (Hsame & _).
  - vm_compute. lia.
  - unfold Toy.static_public.
    rewrite <- (firstn_skipn 9 (Toy.x Toy.large)) at 1.
    change (Toy.blank (StaticPublicKeyLength (Toy.large true)))
      with (Toy.blank 9).
    rewrite Hsame. vm_compute. reflexivity.
Defined.

(** X5. With a generator that draws within its bounds and a maximal
    exponent that fits the key width, an ephemeral private key is a static
    key pair laid end to end: the blob [GenerateEphemeralPrivateKey] makes
    is the key [GenerateStaticPrivateKey] makes from the same generator
    state, followed by the public key [GenerateStaticPublicKey] derives
    from it, and both leave the generator in the same state. *)
Theorem GenerateEphemeralPrivateKey_is_static_pair {Element}
    (D : FHMQV_Domain Element) (R : RandomNumberGenerator)
    (rng rng_pub : rng_state R) (blob static_buf public_buf : bytes) :
  let P := m_groupParameters D in
  let n := StaticPrivateKeyLength D in
  let m := StaticPublicKeyLength D in
  let ephemeral := GenerateEphemeralPrivateKey D R rng blob in
  let static := GenerateStaticPrivateKey D R rng static_buf in
  (forall s lo hi, lo <= hi -> lo <= fst (GenerateInteger R s lo hi) <= hi) ->
  1 <= GetMaxExponent P < 256 ^ Z.of_N n ->
  (forall E, length (EncodeElement P true E) = N.to_nat m) ->
  length blob = N.to_nat (n + m) ->
  length static_buf = N.to_nat n ->
  length public_buf = N.to_nat m ->
  snd ephemeral
  = snd static
    ++ snd (GenerateStaticPublicKey D R rng_pub (snd static) public_buf)
  /\ fst ephemeral = fst static.
Proof.
  intros P n m ephemeral static Hdraws Hmax Henc Hblob Hsta Hpub.
  destruct (GenerateEphemeralPrivateKey_layout D R Henc rng blob Hblob)
    as (k & rng' & Hdraw & Heph).
  pose proof (Hdraws rng 1 (GetMaxExponent P) ltac:(lia)) as Hk.
  fold P in Hdraw, Heph. rewrite Hdraw in Hk. cbn [fst] in Hk.
  subst ephemeral static. rewrite Heph.
  unfold GenerateStaticPrivateKey, GenerateStaticPublicKey,
    GetAbstractGroupParameters. fold P. rewrite Hdraw. cbn [fst snd].
  fold n. rewrite (mem_write_fill static_buf)
    by (rewrite Integer_Encode_length; lia).
  rewrite Integer_Decode_Encode_small by lia.
  rewrite (mem_write_fill public_buf) by (rewrite Henc; lia).
  split; reflexivity.
Qed.

Lemma GenerateEphemeralPrivateKey_is_static_pair_witness :
  Toy.ephemeral_private (Toy.large true) 2
  = Toy.static_private (Toy.large true) 2
    ++ Toy.static_public (Toy.large true)
         (Toy.static_private (Toy.large true) 2).
Proof.
  assert (Henc : forall E : Z,
            length (EncodeElement (m_groupParameters (Toy.large true)) true E)
            = N.to_nat (StaticPublicKeyLength (Toy.large true)))
    by (intro E; apply Integer_Encode_length).
  assert (Hmax : 1 <= GetMaxExponent (m_groupParameters (Toy.large true))
                 < 256 ^ Z.of_N (StaticPrivateKeyLength (Toy.large true)))
    by (vm_compute; split; [discriminate|reflexivity]).
  exact (proj1 (GenerateEphemeralPrivateKey_is_static_pair (Toy.large true)
                  LCG 2 0 (Toy.blank 18) (Toy.blank 9) (Toy.blank 9)
                  LCG_in_range Hmax Henc eq_refl eq_refl eq_refl)).
Defined.

(** X6. Under the same conditions the public key cached in a generated
    ephemeral blob is the one its scalar determines:
    [GenerateEphemeralPublicKey], which copies the cache, and
    [GenerateStaticPublicKey], which exponentiates the leading scalar,
    store the same bytes in any output buffer. *)
Theorem cached_public_key_matches_scalar {Element}
    (D : FHMQV_Domain Element) (R : RandomNumberGenerator)
    (rng rng1 rng2 : rng_state R) (blob publicKey : bytes) :
  let P := m_groupParameters D in
  let n := StaticPrivateKeyLength D in
  let m := StaticPublicKeyLength D in
  let sk := snd (GenerateEphemeralPrivateKey D R rng blob) in
  (forall s lo hi, lo <= hi -> lo <= fst (GenerateInteger R s lo hi) <= hi) ->
  1 <= GetMaxExponent P < 256 ^ Z.of_N n ->
  (forall E, length (EncodeElement P true E) = N.to_nat m) ->
  length blob = N.to_nat (n + m) ->
  snd (GenerateEphemeralPublicKey D R rng1 sk publicKey)
  = snd (GenerateStaticPublicKey D R rng2 sk publicKey).
Proof.
  intros P n m sk Hdraws Hmax Henc Hblob.
  destruct (GenerateEphemeralPrivateKey_layout D R Henc rng blob Hblob)
    as (k & rng' & Hdraw & Heph).
  pose proof (Hdraws rng 1 (GetMaxExponent P) ltac:(lia)) as Hk.
  fold P in Hdraw, Heph. rewrite Hdraw in Hk. cbn [fst] in Hk.
  subst sk. rewrite Heph. cbn [snd].
  unfold GenerateEphemeralPublicKey, GenerateStaticPublicKey, memcpy,
    GetAbstractGroupParameters, EphemeralPublicKeyLength.
  fold P. fold n. fold m. cbn [snd].
  rewrite drop_app_exact by apply Integer_Encode_length.
  rewrite take_all by (rewrite Henc; lia).
  rewrite Integer_Decode_prefix by apply Integer_Encode_length.
  rewrite Integer_Decode_Encode_small by lia. reflexivity.
Qed.

Lemma cached_public_key_matches_scalar_witness :
  Toy.ephemeral_public (Toy.large true) (Toy.x Toy.large)
  = Toy.static_public (Toy.large true) (Toy.x Toy.large).
Proof.
  assert (Henc : forall E : Z,
            length (EncodeElement (m_groupParameters (Toy.large true)) true E)
            = N.to_nat (StaticPublicKeyLength (Toy.large true)))
    by (intro E; apply Integer_Encode_length).
  assert (Hmax : 1 <= GetMaxExponent (m_groupParameters (Toy.large true))
                 < 256 ^ Z.of_N (StaticPrivateKeyLength (Toy.large true)))
    by (vm_compute; split; [discriminate|reflexivity]).
  exact (cached_public_key_matches_scalar (Toy.large true) LCG 2 0 0
           (Toy.blank 18) (Toy.blank 9) LCG_in_range Hmax Henc eq_refl).
Defined.

(** ** Hash and the output of Agree *)

Lemma take_app_le (k : N) (p rest : bytes) :
  (N.to_nat k <= length p)%nat -> take k (p ++ rest) = take k p.
Proof.
  intro H. unfold take. rewrite firstn_app.
  replace (N.to_nat k - length p)%nat with O by lia.
  cbn [firstn]. apply app_nil_r.
Qed.

(** X7. [Hash] stores the first [min(dlen, DIGESTSIZE)] bytes of the
    digest at the start of [digest] and nothing else: the buffer keeps
    its length and every byte from that offset on, so a request for more
    than [DIGESTSIZE] bytes leaves the tail of the buffer as it was.
    Without [sigma] the digest is that of the four operands in the order
    given. *)
Theorem Hash_writes_prefix {Element} (D : FHMQV_Domain Element)
    (U : allocator) (sigma : option Element)
    (e1 : bytes) (e1len : N) (e2 : bytes) (e2len : N)
    (s1 : bytes) (s1len : N) (s2 : bytes) (s2len : N)
    (digest : bytes) (dlen : N) :
  let sz := N.min dlen (DIGESTSIZE (HASH D)) in
  let out := Hash D U sigma e1 e1len e2 e2len s1 s1len s2 s2len digest dlen in
  hash_sized (HASH D) ->
  (N.to_nat sz <= length digest)%nat ->
  length out = length digest
  /\ drop sz out = drop sz digest
  /\ (sigma = None ->
      take sz out
      = take sz (Final (HASH D)
                   (take e1len e1 ++ take e2len e2
                      ++ take s1len s1 ++ take s2len s2))).
Proof.
  intros sz out Hsized Hbuf. subst out. unfold Hash. cbv zeta. fold sz.
  set (fed := _ ++ take e1len e1 ++ _).
  assert (Hlen : length (take sz (Final (HASH D) fed)) = N.to_nat sz).
  { apply take_length_le. rewrite Hsized. subst sz. lia. }
  destruct (mem_write_0_parts digest (take sz (Final (HASH D) fed))
              ltac:(lia)) as (L & F & S).
  rewrite Hlen in F, S. split; [exact L|]. split; [exact S|].
  intro Hnone. unfold take at 1. rewrite F. subst fed. now rewrite Hnone.
Qed.

Lemma Hash_writes_prefix_witness :
  let digest := repeat xff 5 in
  let out := Hash (Toy.large true) Toy.U_zero None
               [x01] 1 [x02] 1 [x03] 1 [x04] 1 digest 5 in
  length out = 5%nat /\ drop 4 out = [xff].
Proof.
  intros digest out.
  destruct (Hash_writes_prefix (Toy.large true) Toy.U_zero None
              [x01] 1 [x02] 1 [x03] 1 [x04] 1 digest 5 Adler32_sized)
    as (L & S & _).
  - vm_compute. lia.
  - split; [exact L|exact S].
Defined.

(** X8. A successful [Agree] stores, at the start of [agreedValue], the
    first [DIGESTSIZE] bytes of the digest of the encoded shared element
    followed by X, Y, A, B, and keeps the rest of the buffer.  The Client
    takes X from the tail of its own ephemeral blob and A from its own
    static private key, Y and B from the counterpart; the Server takes Y
    and B from its own keys, X and A from the counterpart. *)
Theorem Agree_stores_transcript_digest {Element} (D : FHMQV_Domain Element)
    (U : allocator) (agreedValue staticPrivateKey ephemeralPrivateKey
     staticOtherPublicKey ephemeralOtherPublicKey : bytes) (validate : bool)
    (written : bytes) :
  let P := m_groupParameters D in
  let n := StaticPrivateKeyLength D in
  let m := StaticPublicKeyLength D in
  let own_static :=
    EncodeElement P true
      (ExponentiateBase P (Integer_Decode staticPrivateKey n)) in
  let own_ephemeral := take m (drop n ephemeralPrivateKey) in
  let other_static := take m staticOtherPublicKey in
  let other_ephemeral := take m ephemeralOtherPublicKey in
  let client := match m_role D with RoleClient => true | RoleServer => false end in
  let X := if client then own_ephemeral else other_ephemeral in
  let Y := if client then other_ephemeral else own_ephemeral in
  let A := if client then own_static else other_static in
  let B := if client then other_static else own_static in
  (forall E, length (EncodeElement P true E) = N.to_nat m) ->
  hash_sized (HASH D) ->
  (N.to_nat (AgreedValueLength D) <= length agreedValue)%nat ->
  Agree D U agreedValue staticPrivateKey ephemeralPrivateKey
        staticOtherPublicKey ephemeralOtherPublicKey validate
    = Returned true written ->
  exists VV1 VV2,
    DecodeElement P staticOtherPublicKey false = Some VV1
    /\ DecodeElement P ephemeralOtherPublicKey false = Some VV2
    /\ let o := label_operands D U staticPrivateKey ephemeralPrivateKey
                  staticOtherPublicKey ephemeralOtherPublicKey in
       let sigma := spec_sigma D staticPrivateKey ephemeralPrivateKey
                      (challenge_d D U o) (challenge_e D U o) VV1 VV2 in
       take (AgreedValueLength D) written = spec_agreed_value D sigma X Y A B
    /\ drop (AgreedValueLength D) written
       = drop (AgreedValueLength D) agreedValue
    /\ length written = length agreedValue.
Proof.
  intros P n m own_static own_ephemeral other_static other_ephemeral client
    X Y A B Henc Hsized Hbuf Hrun.
  rewrite Agree_paths in Hrun. fold P in Hrun.
  destruct (DecodeElement P staticOtherPublicKey false) as [VV1|];
    [|discriminate].
  destruct (ValidateElement P (static_level validate) VV1); [|discriminate].
  destruct (DecodeElement P ephemeralOtherPublicKey false) as [VV2|];
    [|discriminate].
  destruct (ValidateElement P 3%N VV2); [|discriminate].
  destruct (GetSubgroupOrder P =? 0); [discriminate|].
  cbv zeta in Hrun. injection Hrun as Hw.
  exists VV1, VV2. split; [reflexivity|]. split; [reflexivity|]. cbv zeta.
  set (sigma := spec_sigma D _ _ _ _ VV1 VV2) in *.
  rewrite (Hash_sigma D Henc) in Hw.
  rewrite (label_operands_explicit D Henc) in Hw. cbv zeta in Hw.
  fold P n m own_static in Hw.
  unfold AgreedValueLength in *. rewrite N.min_id in Hw.
  assert (Hfed : forall sg,
            match m_role D with
            | RoleServer =>
                EncodeElement P true sg ++ take m ephemeralOtherPublicKey
                  ++ take m (drop n ephemeralPrivateKey)
                  ++ take m staticOtherPublicKey ++ take m own_static
            | RoleClient =>
                EncodeElement P true sg ++ take m (drop n ephemeralPrivateKey)
                  ++ take m ephemeralOtherPublicKey
                  ++ take m own_static ++ take m staticOtherPublicKey
            end
            = EncodeElement P true sg ++ X ++ Y ++ A ++ B).
  { intro sg. subst X Y A B client own_ephemeral other_static other_ephemeral.
    rewrite (take_all m own_static) by (subst own_static; rewrite Henc; lia).
    destruct (m_role D); reflexivity. }
  unfold spec_agreed_value. fold P. rewrite <- Hfed.
  set (K := take (DIGESTSIZE (HASH D)) _) in Hw.
  assert (HK : length K = N.to_nat (DIGESTSIZE (HASH D)))
    by (apply take_length_le; rewrite Hsized; lia).
  destruct (mem_write_0_parts agreedValue K ltac:(lia)) as (L & F & S).
  rewrite HK in F, S. rewrite Hw in L, F, S.
  split; [|split; [exact S|exact L]].
  unfold take at 1. rewrite F. subst K.
  destruct (m_role D); reflexivity.
Qed.

Lemma Agree_stores_transcript_digest_witness :
  exists sigma : Z,
    [x00; xc1; x00; x40]
    = spec_agreed_value (Toy.small true) sigma (Toy.X Toy.small)
        (Toy.Y Toy.small) (Toy.A Toy.small) (Toy.B Toy.small).
Proof.
  assert (Henc : forall E : Z,
            length (EncodeElement (m_groupParameters (Toy.small true)) true E)
            = N.to_nat (StaticPublicKeyLength (Toy.small true)))
    by (intro E; apply Integer_Encode_length).
  assert (Hbuf : (N.to_nat (AgreedValueLength (Toy.small true))
                  <= length (Toy.blank 4))%nat) by (vm_compute; lia).
  destruct (Agree_stores_transcript_digest (Toy.small true) Toy.U_zero
              (Toy.blank 4) (Toy.a Toy.small) (Toy.x Toy.small)
              (Toy.B Toy.small) (Toy.Y Toy.small) true [x00; xc1; x00; x40]
              Henc Adler32_sized Hbuf eq_refl)
    as (VV1 & VV2 & _ & _ & Hdigest & _).
  eexists. exact Hdigest.
Defined.

(** ** What decides the outcome of Agree *)

(** X9. Whether [Agree] returns true, returns false or lets the division
    by zero escape is decided by the counterpart's two public keys, the
    flag and the group parameters: own private keys, the role, the output
    buffer and the allocator have no part in it, so [Agree] never rejects
    its own key material.  In the build without assertions the hash has no
    part either; in the build with assertions the digest size decides,
    with the same inputs, whether the call is aborted. *)
Theorem Agree_outcome_ignores_own_keys {Element} (D1 D2 : FHMQV_Domain Element)
    (U1 U2 : allocator) (out1 out2 static1 ephemeral1 static2 ephemeral2
     staticOtherPublicKey ephemeralOtherPublicKey : bytes) (validate : bool) :
  m_groupParameters D1 = m_groupParameters D2 ->
  match Agree D1 U1 out1 static1 ephemeral1
              staticOtherPublicKey ephemeralOtherPublicKey validate,
        Agree D2 U2 out2 static2 ephemeral2
              staticOtherPublicKey ephemeralOtherPublicKey validate with
  | Returned ok1 _, Returned ok2 _ => ok1 = ok2
  | Raised ex1, Raised ex2 => ex1 = ex2
  | _, _ => False
  end
  /\ (DIGESTSIZE (HASH D1) = DIGESTSIZE (HASH D2) ->
      match Agree_asserting D1 U1 out1 static1 ephemeral1
                  staticOtherPublicKey ephemeralOtherPublicKey validate,
            Agree_asserting D2 U2 out2 static2 ephemeral2
                  staticOtherPublicKey ephemeralOtherPublicKey validate with
      | Aborted, Aborted => True
      | Completed (Returned ok1 _), Completed (Returned ok2 _) => ok1 = ok2
      | Completed (Raised ex1), Completed (Raised ex2) => ex1 = ex2
      | _, _ => False
      end).
Proof.
  intro HP.
  assert (Hkind :
    match Agree D1 U1 out1 static1 ephemeral1
                staticOtherPublicKey ephemeralOtherPublicKey validate,
          Agree D2 U2 out2 static2 ephemeral2
                staticOtherPublicKey ephemeralOtherPublicKey validate with
    | Returned ok1 _, Returned ok2 _ => ok1 = ok2
    | Raised ex1, Raised ex2 => ex1 = ex2
    | _, _ => False
    end).
  { rewrite !Agree_paths. rewrite HP.
    set (P := m_groupParameters D2).
    destruct (DecodeElement P staticOtherPublicKey false) as [VV1|];
      [|reflexivity].
    destruct (ValidateElement P (static_level validate) VV1); [|reflexivity].
    destruct (DecodeElement P ephemeralOtherPublicKey false) as [VV2|];
      [|reflexivity].
    destruct (ValidateElement P 3%N VV2); [|reflexivity].
    destruct (GetSubgroupOrder P =? 0); reflexivity. }
  split; [exact Hkind|]. intro Hsize.
  rewrite !Agree_asserting_cases.
  unfold keys_accepted, Hash_assert, GetAbstractGroupParameters.
  rewrite HP, Hsize.
  destruct (_ && _); [exact I|].
  destruct (Agree D1 _ _ _ _ _ _ _), (Agree D2 _ _ _ _ _ _ _); exact Hkind.
Qed.

Lemma Agree_outcome_ignores_own_keys_witness :
  match Agree (Toy.small true) Toy.U_zero (Toy.blank 4) [x00] [x00; x00]
              (Toy.B Toy.small) (Toy.Y Toy.small) true with
  | Returned ok _ => ok = true
  | Raised _ => False
  end
  /\ Agree_asserting (Toy.large true) Toy.U_zero (Toy.blank 4)
       (Toy.blank 9) (Toy.blank 18) (Toy.B Toy.large) (Toy.Y Toy.large) true
     = Aborted.
Proof.
  split.
  - pose proof (Agree_outcome_ignores_own_keys
                  (Toy.small true) (Toy.small false)
                  Toy.U_zero Toy.U_ff (Toy.blank 4) (Toy.blank 4)
                  [x00] [x00; x00] (Toy.a Toy.small) (Toy.x Toy.small)
                  (Toy.B Toy.small) (Toy.Y Toy.small) true eq_refl) as Hboth.
    destruct Hboth as [Hsame _].
    destruct (Agree (Toy.small true) Toy.U_zero (Toy.blank 4) [x00] [x00; x00]
                (Toy.B Toy.small) (Toy.Y Toy.small) true) as [ok w|ex];
      vm_compute in Hsame; [exact Hsame|contradiction].
  - pose proof (Agree_outcome_ignores_own_keys
                  (Toy.large true) (Toy.large false)
                  Toy.U_zero Toy.U_ff (Toy.blank 4) (Toy.blank 4)
                  (Toy.blank 9) (Toy.blank 18) (Toy.a Toy.large)
                  (Toy.x Toy.large) (Toy.B Toy.large) (Toy.Y Toy.large)
                  true eq_refl) as Hboth.
    destruct Hboth as [_ Hsame]. specialize (Hsame eq_refl).
    destruct (Agree_asserting (Toy.large true) Toy.U_zero (Toy.blank 4)
                (Toy.blank 9) (Toy.blank 18) (Toy.B Toy.large)
                (Toy.Y Toy.large) true) as [[ok w|ex]|];
      vm_compute in Hsame; [contradiction|contradiction|reflexivity].
Defined.

(** X10. Where every element that passes level 3 of the group's
    validation passes level 1, clearing [validateStaticOtherPublicKey]
    changes nothing for a key that is accepted with the flag set: the
    call still succeeds and stores the same agreed value. *)
Theorem Agree_flag_only_relaxes {Element} (D : FHMQV_Domain Element)
    (U : allocator) (agreedValue staticPrivateKey ephemeralPrivateKey
     staticOtherPublicKey ephemeralOtherPublicKey written : bytes) :
  (forall E, ValidateElement (m_groupParameters D) 3%N E = true ->
             ValidateElement (m_groupParameters D) 1%N E = true) ->
  Agree D U agreedValue staticPrivateKey ephemeralPrivateKey
        staticOtherPublicKey ephemeralOtherPublicKey true
    = Returned true written ->
  Agree D U agreedValue staticPrivateKey ephemeralPrivateKey
        staticOtherPublicKey ephemeralOtherPublicKey false
    = Returned true written.
Proof.
  intros Hmono. rewrite !Agree_paths. set (P := m_groupParameters D) in *.
  cbn [static_level].
  destruct (DecodeElement P staticOtherPublicKey false) as [VV1|];
    [|discriminate].
  destruct (ValidateElement P 3%N VV1) eqn:V3; [|discriminate].
  rewrite (Hmono VV1 V3). auto.
Qed.

Lemma GFP_Validate_monotone (p q : Z) (E : Z) :
  GFP.Validate p q 3 E = true -> GFP.Validate p q 1 E = true.
Proof.
  unfold GFP.Validate. cbn [N.leb N.compare Pos.compare Pos.compare_cont].
  intro H. apply andb_true_iff in H. destruct H as [H _].
  now rewrite H.
Qed.

Lemma Agree_flag_only_relaxes_witness :
  Toy.client_run Toy.small Toy.U_zero false
  = Returned true [x00; xc1; x00; x40].
Proof.
  apply (Agree_flag_only_relaxes (Toy.small true)).
  - intro E. apply GFP_Validate_monotone.
  - vm_compute. reflexivity.
Defined.

(** X11. [Agree] reads its own private keys only as far as their lengths:
    bytes after the first [StaticPrivateKeyLength()] of the static private
    key, and after the [StaticPrivateKeyLength() + StaticPublicKeyLength()]
    bytes of the ephemeral private key, do not change the result. *)
Theorem Agree_reads_own_keys_to_length {Element} (D : FHMQV_Domain Element)
    (U : allocator) (agreedValue staticPrivateKey ephemeralPrivateKey
     after_static after_ephemeral
     staticOtherPublicKey ephemeralOtherPublicKey : bytes) (validate : bool) :
  length staticPrivateKey = N.to_nat (StaticPrivateKeyLength D) ->
  length ephemeralPrivateKey
    = (N.to_nat (StaticPrivateKeyLength D)
       + N.to_nat (StaticPublicKeyLength D))%nat ->
  Agree D U agreedValue (staticPrivateKey ++ after_static)
        (ephemeralPrivateKey ++ after_ephemeral)
        staticOtherPublicKey ephemeralOtherPublicKey validate
  = Agree D U agreedValue staticPrivateKey ephemeralPrivateKey
          staticOtherPublicKey ephemeralOtherPublicKey validate.
Proof.
  intros Hs He.
  set (n := StaticPrivateKeyLength D) in *.
  set (m := StaticPublicKeyLength D) in *.
  assert (Hds : Integer_Decode (staticPrivateKey ++ after_static) n
                = Integer_Decode staticPrivateKey n)
    by (apply Integer_Decode_prefix; exact Hs).
  assert (Hde : Integer_Decode (ephemeralPrivateKey ++ after_ephemeral) n
                = Integer_Decode ephemeralPrivateKey n).
  { unfold Integer_Decode. now rewrite take_app_le by lia. }
  assert (Htail : take m (drop n (ephemeralPrivateKey ++ after_ephemeral))
                  = take m (drop n ephemeralPrivateKey)).
  { unfold drop. rewrite skipn_app.
    replace (N.to_nat n - length ephemeralPrivateKey)%nat with O by lia.
    cbn [skipn]. apply take_app_le. rewrite length_skipn. lia. }
  unfold Agree, Agree_try, challenge_d, challenge_e, Hash, label_operands,
    EphemeralPublicKeyLength. cbv zeta. fold n. fold m.
  rewrite Hds, Hde.
  destruct (m_role D); cbn [XX YY AA BB xxs yys aas bbs];
    rewrite Htail; reflexivity.
Qed.

Lemma Agree_reads_own_keys_to_length_witness :
  Agree (Toy.small true) Toy.U_zero (Toy.blank 4)
        (Toy.a Toy.small ++ [xff; xff]) (Toy.x Toy.small ++ [xff])
        (Toy.B Toy.small) (Toy.Y Toy.small) true
  = Returned true [x00; xc1; x00; x40].
Proof.
  rewrite (Agree_reads_own_keys_to_length (Toy.small true) Toy.U_zero
             (Toy.blank 4) (Toy.a Toy.small) (Toy.x Toy.small)
             [xff; xff] [xff] (Toy.B Toy.small) (Toy.Y Toy.small) true
             eq_refl eq_refl).
  vm_compute. reflexivity.
Defined.

(** ** Within the digest size *)

(** X12. When the challenge length does not exceed the digest size (the
    condition [Hash] asserts), [d] is the digest of X, Y, A, B cut to that
    length and read big-endian, and [e] that of Y, X, A, B, whatever the
    allocator hands out; X, Y, A, B are the operands of the role as in
    the final digest. *)
Theorem challenges_within_digest {Element} (D : FHMQV_Domain Element)
    (U : allocator) (staticPrivateKey ephemeralPrivateKey
     staticOtherPublicKey ephemeralOtherPublicKey : bytes) :
  let P := m_groupParameters D in
  let n := StaticPrivateKeyLength D in
  let m := StaticPublicKeyLength D in
  let o := label_operands D U staticPrivateKey ephemeralPrivateKey
             staticOtherPublicKey ephemeralOtherPublicKey in
  let own_static :=
    EncodeElement P true
      (ExponentiateBase P (Integer_Decode staticPrivateKey n)) in
  let own_ephemeral := take m (drop n ephemeralPrivateKey) in
  let other_static := take m staticOtherPublicKey in
  let other_ephemeral := take m ephemeralOtherPublicKey in
  let client := match m_role D with RoleClient => true | RoleServer => false end in
  let X := if client then own_ephemeral else other_ephemeral in
  let Y := if client then other_ephemeral else own_ephemeral in
  let A := if client then own_static else other_static in
  let B := if client then other_static else own_static in
  hash_sized (HASH D) ->
  (forall E, length (EncodeElement P true E) = N.to_nat m) ->
  Hash_assert D (challenge_len (GetSubgroupOrder P)) = true ->
  challenge_d D U o = spec_challenge D X Y A B
  /\ challenge_e D U o = spec_challenge D Y X A B.
Proof.
  intros P n m o own_static own_ephemeral other_static other_ephemeral client
    X Y A B Hsized Henc Hassert.
  destruct (challenges_covered D Hsized U o Hassert) as [Hd He].
  rewrite Hd, He. subst o.
  rewrite (label_operands_explicit D Henc). cbv zeta.
  fold P n m own_static.
  subst X Y A B client own_ephemeral other_static other_ephemeral.
  assert (Hown : take m own_static = own_static)
    by (apply take_all; subst own_static; rewrite Henc; lia).
  destruct (m_role D); cbn [XX YY AA BB xxs yys aas bbs];
    rewrite Hown; split; reflexivity.
Qed.

Lemma challenges_within_digest_witness :
  let o := label_operands (Toy.small true) Toy.U_ff (Toy.a Toy.small)
             (Toy.x Toy.small) (Toy.B Toy.small) (Toy.Y Toy.small) in
  challenge_d (Toy.small true) Toy.U_ff o
  = spec_challenge (Toy.small true) (Toy.X Toy.small) (Toy.Y Toy.small)
      (Toy.A Toy.small) (Toy.B Toy.small).
Proof.
  assert (Henc : forall E : Z,
            length (EncodeElement (m_groupParameters (Toy.small true)) true E)
            = N.to_nat (StaticPublicKeyLength (Toy.small true)))
    by (intro E; apply Integer_Encode_length).
  exact (proj1 (challenges_within_digest (Toy.small true) Toy.U_ff
                  (Toy.a Toy.small) (Toy.x Toy.small) (Toy.B Toy.small)
                  (Toy.Y Toy.small) Adler32_sized Henc eq_refl)).
Defined.

(** X13. Under the same condition, with a hash of fixed digest size and
    encodings of the announced size, two calls of [Agree] with the same
    keys and flag return the same success or failure and, on success,
    the same agreed value, whatever the allocators hand out and whatever
    the output buffers of the agreed length held. *)
Theorem Agree_deterministic_within_digest {Element} (D : FHMQV_Domain Element)
    (U1 U2 : allocator)
    (out1 out2 staticPrivateKey ephemeralPrivateKey
     staticOtherPublicKey ephemeralOtherPublicKey : bytes) (validate : bool) :
  hash_sized (HASH D) ->
  (forall E, length (EncodeElement (m_groupParameters D) true E)
             = N.to_nat (StaticPublicKeyLength D)) ->
  Hash_assert D (challenge_len (GetSubgroupOrder (m_groupParameters D))) = true ->
  length out1 = N.to_nat (AgreedValueLength D) ->
  length out2 = N.to_nat (AgreedValueLength D) ->
  match Agree D U1 out1 staticPrivateKey ephemeralPrivateKey
              staticOtherPublicKey ephemeralOtherPublicKey validate,
        Agree D U2 out2 staticPrivateKey ephemeralPrivateKey
              staticOtherPublicKey ephemeralOtherPublicKey validate with
  | Returned ok1 v1, Returned ok2 v2 => ok1 = ok2 /\ (ok1 = true -> v1 = v2)
  | Raised e1, Raised e2 => e1 = e2
  | _, _ => False
  end.
Proof.
  intros Hsized Henc Hassert L1 L2.
  now apply Agree_deterministic_when_covered.
Qed.

Lemma Agree_deterministic_within_digest_witness :
  match Agree (Toy.small true) Toy.U_ff (repeat xff 4) (Toy.a Toy.small)
              (Toy.x Toy.small) (Toy.B Toy.small) (Toy.Y Toy.small) true with
  | Returned ok v => ok = true /\ v = [x00; xc1; x00; x40]
  | Raised _ => False
  end.
Proof.
  assert (Henc : forall E : Z,
            length (EncodeElement (m_groupParameters (Toy.small true)) true E)
            = N.to_nat (StaticPublicKeyLength (Toy.small true)))
    by (intro E; apply Integer_Encode_length).
  pose proof (Agree_deterministic_within_digest (Toy.small true)
                Toy.U_zero Toy.U_ff (Toy.blank 4) (repeat xff 4)
                (Toy.a Toy.small) (Toy.x Toy.small) (Toy.B Toy.small)
                (Toy.Y Toy.small) true Adler32_sized Henc
                eq_refl eq_refl eq_refl) as Hsame.
  destruct (Agree (Toy.small true) Toy.U_ff (repeat xff 4) (Toy.a Toy.small)
              (Toy.x Toy.small) (Toy.B Toy.small) (Toy.Y Toy.small) true)
    as [ok v|ex]; vm_compute in Hsame; [|contradiction].
  destruct Hsame as [Hok Hv]. subst ok. split; [reflexivity|].
  symmetry. exact (Hv eq_refl).
Defined.

(** X14. Under the same condition, in a group that obeys the group laws,
    with a generator that draws within its bounds and exponents below the
    subgroup order, a Client and a Server that make their keys with the
    four generators and exchange the public ones, each finding the
    other's keys valid, both succeed in both builds and store the same
    agreed value at the start of their buffers: the [DIGESTSIZE] bytes of
    the digest of the encoded element [g^((x + d*a) * (y + e*b))] followed
    by X, Y, A, B, where [a], [x], [b], [y] are the exponents the private
    keys decode to and [d], [e] the truncated digests of X,Y,A,B and
    Y,X,A,B. *)
Theorem Agree_mutual_within_digest {Element}
    (H : HashTransformation) (P : DL_GroupParameters Element)
    (R : RandomNumberGenerator) (Uc Us : allocator) (out_c out_s : bytes)
    (validate_c validate_s : bool)
    (seed_a seed_b seed_x seed_y rng_A rng_B rng_X rng_Y : rng_state R)
    (buf_a buf_b buf_x buf_y buf_A buf_B buf_X buf_Y : bytes) :
  let Client := mk_FHMQV_Domain H P true in
  let Server := mk_FHMQV_Domain H P false in
  let n := StaticPrivateKeyLength Client in
  let m := StaticPublicKeyLength Client in
  let a := snd (GenerateStaticPrivateKey Client R seed_a buf_a) in
  let A := snd (GenerateStaticPublicKey Client R rng_A a buf_A) in
  let x := snd (GenerateEphemeralPrivateKey Client R seed_x buf_x) in
  let X := snd (GenerateEphemeralPublicKey Client R rng_X x buf_X) in
  let b := snd (GenerateStaticPrivateKey Server R seed_b buf_b) in
  let B := snd (GenerateStaticPublicKey Server R rng_B b buf_B) in
  let y := snd (GenerateEphemeralPrivateKey Server R seed_y buf_y) in
  let Y := snd (GenerateEphemeralPublicKey Server R rng_Y y buf_Y) in
  let ka := Integer_Decode a n in
  let kx := Integer_Decode x n in
  let kb := Integer_Decode b n in
  let ky := Integer_Decode y n in
  let d := spec_challenge Client X Y A B in
  let e := spec_challenge Client Y X A B in
  let sigma := ExponentiateBase P ((kx + d * ka) * (ky + e * kb)) in
  let K := spec_agreed_value Client sigma X Y A B in
  group_laws P ->
  hash_sized H ->
  (forall s lo hi, lo <= hi -> lo <= fst (GenerateInteger R s lo hi) <= hi) ->
  1 <= GetMaxExponent P < GetSubgroupOrder P ->
  ValidateElement P (static_level validate_c) (ExponentiateBase P kb) = true ->
  ValidateElement P 3%N (ExponentiateBase P ky) = true ->
  ValidateElement P (static_level validate_s) (ExponentiateBase P ka) = true ->
  ValidateElement P 3%N (ExponentiateBase P kx) = true ->
  length buf_a = N.to_nat n -> length buf_b = N.to_nat n ->
  length buf_x = N.to_nat (n + m) -> length buf_y = N.to_nat (n + m) ->
  length buf_A = N.to_nat m -> length buf_B = N.to_nat m ->
  length buf_X = N.to_nat m -> length buf_Y = N.to_nat m ->
  Hash_assert Client (challenge_len (GetSubgroupOrder P)) = true ->
  length K = N.to_nat (DIGESTSIZE H)
  /\ (Agree Client Uc out_c a x B Y validate_c
        = Returned true (mem_write out_c 0 K)
      /\ Agree Server Us out_s b y A X validate_s
        = Returned true (mem_write out_s 0 K))
  /\ (Agree_asserting Client Uc out_c a x B Y validate_c
        = Completed (Returned true (mem_write out_c 0 K))
      /\ Agree_asserting Server Us out_s b y A X validate_s
        = Completed (Returned true (mem_write out_s 0 K))).
Proof.
  intros Client Server n m a A x X b B y Y ka kx kb ky d e sigma K
    Hlaws Hsized Hdraws Hmax VB VY VA VX La Lb Lx Ly LA LB LX LY Hassert.
  destruct (GenerateEphemeralPrivateKey_honest H P R Hlaws Hdraws Hmax
              true seed_x buf_x Lx) as (xs & Lxs & _ & Ex). fold Client x in Ex.
  destruct (GenerateEphemeralPrivateKey_honest H P R Hlaws Hdraws Hmax
              false seed_y buf_y Ly) as (ys & Lys & _ & Ey). fold Server y in Ey.
  assert (Ekx : kx = Integer_Decode xs n)
    by (subst kx; rewrite Ex; apply Integer_Decode_prefix; exact Lxs).
  assert (Eky : ky = Integer_Decode ys n)
    by (subst ky; rewrite Ey; apply Integer_Decode_prefix; exact Lys).
  assert (EA : A = EncodeElement P true (ExponentiateBase P ka))
    by (apply (GenerateStaticPublicKey_encodes H P R Hlaws); exact LA).
  assert (EB : B = EncodeElement P true (ExponentiateBase P kb))
    by (apply (GenerateStaticPublicKey_encodes H P R Hlaws); exact LB).
  assert (EX : X = EncodeElement P true (ExponentiateBase P kx)).
  { subst X. rewrite Ex, Ekx.
    apply (GenerateEphemeralPublicKey_cached H P R);
      [exact Lxs|apply (encode_size P Hlaws)|exact LX]. }
  assert (EY : Y = EncodeElement P true (ExponentiateBase P ky)).
  { subst Y. rewrite Ey, Eky.
    apply (GenerateEphemeralPublicKey_cached H P R);
      [exact Lys|apply (encode_size P Hlaws)|exact LY]. }
  assert (Hboth :
    Agree Client Uc out_c a x B Y validate_c
      = Returned true (mem_write out_c 0 K)
    /\ Agree Server Us out_s b y A X validate_s
      = Returned true (mem_write out_s 0 K)).
  { subst K sigma d e. rewrite EA, EB, EX, EY, Ex, Ey.
    rewrite Ekx in VX |- *. rewrite Eky in VY |- *.
    exact (Agree_mutual H P Hlaws Hsized a b xs ys Lxs Lys Uc Us out_c out_s
             validate_c validate_s VB VY VA VX Hassert). }
  split; [|split; [exact Hboth|]].
  - subst K. unfold spec_agreed_value. apply take_length_le.
    rewrite Hsized. cbn [HASH Client mk_FHMQV_Domain]. lia.
  - destruct Hboth as [Hc Hs].
    rewrite !Agree_asserting_cases, Hc, Hs.
    change (Hash_assert Server
              (challenge_len (GetSubgroupOrder (m_groupParameters Server))))
      with (Hash_assert Client (challenge_len (GetSubgroupOrder P))).
    change (GetSubgroupOrder (m_groupParameters Client))
      with (GetSubgroupOrder P).
    rewrite Hassert. cbn [negb]. rewrite !andb_false_r. split; reflexivity.
Qed.

Lemma Agree_mutual_within_digest_witness :
  Toy.client_run Toy.medium Toy.U_zero true
    = Returned true [x58; x54; x08; x50]
  /\ Toy.server_run Toy.medium Toy.U_ff false
    = Returned true [x58; x54; x08; x50].
Proof.
  assert (Hlaws : group_laws (GFP.params Toy.p32 Toy.q31 4))
    by (apply GFP_group_laws; vm_compute; reflexivity).
  assert (Hmax : 1 <= GetMaxExponent (GFP.params Toy.p32 Toy.q31 4)
                 < GetSubgroupOrder (GFP.params Toy.p32 Toy.q31 4))
    by (vm_compute; split; [discriminate|reflexivity]).
  destruct (Agree_mutual_within_digest Adler32.hash
              (GFP.params Toy.p32 Toy.q31 4) LCG
              Toy.U_zero Toy.U_ff (Toy.blank 4) (Toy.blank 4) true false
              1 3 2 4 0 0 0 0
              (Toy.blank 4) (Toy.blank 4) (Toy.blank 8) (Toy.blank 8)
              (Toy.blank 4) (Toy.blank 4) (Toy.blank 4) (Toy.blank 4)
              Hlaws Adler32_sized LCG_in_range Hmax
              eq_refl eq_refl eq_refl eq_refl
              eq_refl eq_refl eq_refl eq_refl eq_refl eq_refl eq_refl eq_refl
              eq_refl) as (_ & [Hc Hs] & _).
  split; [exact Hc|exact Hs].
Defined.

(** X15. The build with assertions aborts exactly when a call gets past
    the two validations (both counterpart keys decode and pass their
    levels) with a challenge length above the digest size; in every other
    case it comes back with what the build without assertions returns or
    raises.  The abort depends on neither own key. *)
Theorem Agree_asserting_aborts_iff {Element} (D : FHMQV_Domain Element)
    (U : allocator) (agreedValue staticPrivateKey ephemeralPrivateKey
     staticOtherPublicKey ephemeralOtherPublicKey : bytes) (validate : bool) :
  let P := m_groupParameters D in
  let len := challenge_len (GetSubgroupOrder P) in
  let asserting :=
    Agree_asserting D U agreedValue staticPrivateKey ephemeralPrivateKey
      staticOtherPublicKey ephemeralOtherPublicKey validate in
  (asserting = Aborted <->
   (DIGESTSIZE (HASH D) < len)%N
   /\ exists VV1 VV2,
        DecodeElement P staticOtherPublicKey false = Some VV1
        /\ ValidateElement P (static_level validate) VV1 = true
        /\ DecodeElement P ephemeralOtherPublicKey false = Some VV2
        /\ ValidateElement P 3%N VV2 = true)
  /\ (asserting <> Aborted ->
      asserting
      = Completed
          (Agree D U agreedValue staticPrivateKey ephemeralPrivateKey
             staticOtherPublicKey ephemeralOtherPublicKey validate)).
Proof.
  intros P len asserting. subst asserting.
  rewrite Agree_asserting_cases.
  unfold keys_accepted, Hash_assert, GetAbstractGroupParameters.
  fold P. fold len.
  change (if validate then 3%N else 1%N) with (static_level validate).
  destruct (len <=? DIGESTSIZE (HASH D))%N eqn:Hle;
    [apply N.leb_le in Hle|apply N.leb_gt in Hle]; cbn [negb].
  - rewrite andb_false_r. split; [|reflexivity].
    split; [discriminate|]. intros [Hlt _]. lia.
  - rewrite andb_true_r.
    destruct (DecodeElement P staticOtherPublicKey false) as [VV1|].
    2:{ split; [|reflexivity]. split; [discriminate|].
        intros (_ & V & _ & HV & _). discriminate. }
    destruct (DecodeElement P ephemeralOtherPublicKey false) as [VV2|].
    2:{ split; [|reflexivity]. split; [discriminate|].
        intros (_ & V & W & _ & _ & HW & _). discriminate. }
    destruct (ValidateElement P (static_level validate) VV1) eqn:V1;
      destruct (ValidateElement P 3%N VV2) eqn:V2; cbn [andb].
    + split; [|congruence]. split; [|reflexivity].
      intros _. split; [exact Hle|]. exists VV1, VV2. auto.
    + split; [|reflexivity]. split; [discriminate|].
      intros (_ & V & W & _ & _ & HW & HV2). congruence.
    + split; [|reflexivity]. split; [discriminate|].
      intros (_ & V & W & HV & HV1 & _). congruence.
    + split; [|reflexivity]. split; [discriminate|].
      intros (_ & V & W & HV & HV1 & _). congruence.
Qed.

Lemma Agree_asserting_aborts_iff_witness :
  Agree_asserting (Toy.large true) Toy.U_zero (Toy.blank 4)
    (Toy.a Toy.large) (Toy.x Toy.large) (Toy.B Toy.large) (Toy.Y Toy.large)
    true
  = Aborted
  /\ Agree_asserting (Toy.medium true) Toy.U_zero (Toy.blank 4)
       (Toy.a Toy.medium) (Toy.x Toy.medium) (Toy.B Toy.medium)
       (Toy.Y Toy.medium) true
     = Completed (Toy.client_run Toy.medium Toy.U_zero true).
Proof.
  split.
  - apply (proj1 (Agree_asserting_aborts_iff (Toy.large true) Toy.U_zero
                    (Toy.blank 4) (Toy.a Toy.large) (Toy.x Toy.large)
                    (Toy.B Toy.large) (Toy.Y Toy.large) true)).
    split; [vm_compute; reflexivity|].
    exists (Integer_Decode (Toy.B Toy.large) 9),
           (Integer_Decode (Toy.Y Toy.large) 9).
    vm_compute. repeat split.
  - apply (proj2 (Agree_asserting_aborts_iff (Toy.medium true) Toy.U_zero
                    (Toy.blank 4) (Toy.a Toy.medium) (Toy.x Toy.medium)
                    (Toy.B Toy.medium) (Toy.Y Toy.medium) true)).
    vm_compute. discriminate.
Defined.
